(** * sfu-ws: the many-to-many websocket SFU

    A shallow embedding of the session orchestration of the relay: the track
    registry [trackLocals], the session registry [peerConnections], the
    reconciliation [signalPeerConnections] with its inner [attemptSync], the
    keyframe dispatch, the RTP relay loop of the [OnTrack] callback, and the
    setup and the signaling read loop of [websocketHandler].

    The transport engine (pion/webrtc), the JSON codec and the Go runtime are
    external.  Their state is modelled as far as the orchestration observes
    it; what a call returns when it fails is taken from a failure script
    (one boolean per fallible call, in call order), and what the code cannot
    observe (SDP text, JSON text, the order of a [range] over a map, the RTP
    parser) is kept as a parameter in the class [Environment]. *)

From Stdlib Require Import Init.Byte.
From stdpp Require Import gmap strings list fin_maps.

Set Warnings "-clear-no-such-hyp".

Open Scope string_scope.
Open Scope list_scope.
Open Scope nat_scope.

(** ** Engine data *)

Inductive PeerConnectionState :=
  | PeerConnectionStateNew
  | PeerConnectionStateConnecting
  | PeerConnectionStateConnected
  | PeerConnectionStateDisconnected
  | PeerConnectionStateFailed
  | PeerConnectionStateClosed.

#[global] Instance PeerConnectionState_eq_dec : EqDecision PeerConnectionState.
Proof. solve_decision. Defined.

Record RTPCodecCapability := {
  MimeType : string;
  ClockRate : N;
  Channels : N;
}.

#[global] Instance RTPCodecCapability_eq_dec : EqDecision RTPCodecCapability.
Proof. solve_decision. Defined.

(** An inbound track, as the engine hands it to [OnTrack]. *)
Record TrackRemote := {
  remote_ID : string;
  remote_StreamID : string;
  remote_Codec : RTPCodecCapability;
  remote_SSRC : N;
}.

#[global] Instance TrackRemote_eq_dec : EqDecision TrackRemote.
Proof. solve_decision. Defined.

(** The forwardable track object stored in the registry. *)
Record TrackLocalStaticRTP := {
  local_Codec : RTPCodecCapability;
  local_ID : string;
  local_StreamID : string;
}.

#[global] Instance TrackLocalStaticRTP_eq_dec : EqDecision TrackLocalStaticRTP.
Proof. solve_decision. Defined.

(** [webrtc.NewTrackLocalStaticRTP] without options has no failing path. *)
Definition NewTrackLocalStaticRTP (c : RTPCodecCapability) (id streamID : string)
  : TrackLocalStaticRTP :=
  {| local_Codec := c; local_ID := id; local_StreamID := streamID |}.

(** A sender is a handle (pointer identity) and the track bound to it;
    [Track()] is nil when [sender_Track] is [None]. *)
Record RTPSender := {
  sender_handle : nat;
  sender_Track : option TrackLocalStaticRTP;
}.

#[global] Instance RTPSender_eq_dec : EqDecision RTPSender.
Proof. solve_decision. Defined.

Record RTPReceiver := {
  receiver_Track : option TrackRemote;
}.

#[global] Instance RTPReceiver_eq_dec : EqDecision RTPReceiver.
Proof. solve_decision. Defined.

Inductive SDPType := SDPTypeOffer | SDPTypePranswer | SDPTypeAnswer | SDPTypeRollback.

#[global] Instance SDPType_eq_dec : EqDecision SDPType.
Proof. solve_decision. Defined.

Record SessionDescription := {
  sd_Type : SDPType;
  sd_SDP : string;
}.

#[global] Instance SessionDescription_eq_dec : EqDecision SessionDescription.
Proof. solve_decision. Defined.

Record ICECandidateInit := {
  ice_Candidate : string;
}.

#[global] Instance ICECandidateInit_eq_dec : EqDecision ICECandidateInit.
Proof. solve_decision. Defined.

(** The engine-side state of one connection, as far as the relay reads it. *)
Record PeerConnection := {
  ConnectionState : PeerConnectionState;
  GetSenders : list RTPSender;
  GetReceivers : list RTPReceiver;
  LocalDescription : option SessionDescription;
  RemoteDescription : option SessionDescription;
  RemoteCandidates : list ICECandidateInit;
}.

Definition set_ConnectionState (st : PeerConnectionState) (pc : PeerConnection) : PeerConnection :=
  {| ConnectionState := st;
     GetSenders := GetSenders pc;
     GetReceivers := GetReceivers pc;
     LocalDescription := LocalDescription pc;
     RemoteDescription := RemoteDescription pc;
     RemoteCandidates := RemoteCandidates pc |}.

Definition set_Senders (ss : list RTPSender) (pc : PeerConnection) : PeerConnection :=
  {| ConnectionState := ConnectionState pc;
     GetSenders := ss;
     GetReceivers := GetReceivers pc;
     LocalDescription := LocalDescription pc;
     RemoteDescription := RemoteDescription pc;
     RemoteCandidates := RemoteCandidates pc |}.

Definition set_LocalDescription (d : SessionDescription) (pc : PeerConnection) : PeerConnection :=
  {| ConnectionState := ConnectionState pc;
     GetSenders := GetSenders pc;
     GetReceivers := GetReceivers pc;
     LocalDescription := Some d;
     RemoteDescription := RemoteDescription pc;
     RemoteCandidates := RemoteCandidates pc |}.

Definition set_RemoteDescription (d : SessionDescription) (pc : PeerConnection) : PeerConnection :=
  {| ConnectionState := ConnectionState pc;
     GetSenders := GetSenders pc;
     GetReceivers := GetReceivers pc;
     LocalDescription := LocalDescription pc;
     RemoteDescription := Some d;
     RemoteCandidates := RemoteCandidates pc |}.

Definition add_RemoteCandidate (c : ICECandidateInit) (pc : PeerConnection) : PeerConnection :=
  {| ConnectionState := ConnectionState pc;
     GetSenders := GetSenders pc;
     GetReceivers := GetReceivers pc;
     LocalDescription := LocalDescription pc;
     RemoteDescription := RemoteDescription pc;
     RemoteCandidates := RemoteCandidates pc ++ [c] |}.

(** ** The signaling envelope and the session registry entry *)

Record websocketMessage := {
  Event : string;
  Data : string;
}.

#[global] Instance websocketMessage_eq_dec : EqDecision websocketMessage.
Proof. solve_decision. Defined.

(** The wrapper owns one websocket connection; its mutex only serialises
    writers and has no sequential content. *)
Record threadSafeWriter := {
  Conn : nat;
}.

Record peerConnectionState := {
  peerConnection : PeerConnection;
  websocket : threadSafeWriter;
}.

(** ** What the engine does when a call succeeds *)

(** [RemoveTrack] detaches the sender: the connection no longer lists it. *)
Fixpoint detach (s : RTPSender) (ss : list RTPSender) : list RTPSender :=
  match ss with
  | [] => []
  | s' :: rest => if decide (s' = s) then rest else s' :: detach s rest
  end.

Definition engine_RemoveTrack (s : RTPSender) (pc : PeerConnection) : PeerConnection :=
  set_Senders (detach s (GetSenders pc)) pc.

Definition fresh_handle (ss : list RTPSender) : nat :=
  S (foldr Nat.max 0 (sender_handle <$> ss)).

(** [AddTrack] gives the connection one more sender, bound to the track. *)
Definition engine_AddTrack (t : TrackLocalStaticRTP) (pc : PeerConnection) : PeerConnection :=
  set_Senders
    (GetSenders pc ++ [{| sender_handle := fresh_handle (GetSenders pc); sender_Track := Some t |}])
    pc.

(** ** Calls and events *)

Inductive Call :=
  | CallRemoveTrack (s : RTPSender)
  | CallAddTrack (t : TrackLocalStaticRTP)
  | CallCreateOffer
  | CallSetLocalDescription (d : SessionDescription)
  | CallMarshal (d : SessionDescription)
  | CallWriteJSON (m : websocketMessage).

#[global] Instance Call_eq_dec : EqDecision Call.
Proof. solve_decision. Defined.

(** Go durations count nanoseconds. *)
Definition time_Second : Z := 1000000000.

Inductive Effect :=
  | EngineCall (i : nat) (c : Call) (ok : bool)
      (* a fallible call made for the session at index [i], and whether it succeeded *)
  | WriteRTCP (i : nat) (MediaSSRC : N)
      (* a picture loss indication; its error is dropped *)
  | GoSleepSignal (d : Z).
      (* go func() { time.Sleep(d); signalPeerConnections() }() *)

#[global] Instance Effect_eq_dec : EqDecision Effect.
Proof. solve_decision. Defined.

(** ** RTP packets *)

Record rtp_Extension := {
  ext_id : N;
  ext_payload : list byte;
}.

Record Packet := {
  Version : N;
  Padding : bool;
  Extension : bool;
  Marker : bool;
  PayloadType : N;
  SequenceNumber : N;
  Timestamp : N;
  SSRC : N;
  CSRC : list N;
  ExtensionProfile : N;
  Extensions : list rtp_Extension;
  Payload : list byte;
}.

(** The calls of one connection, as events of the session at index [i]. *)
Definition tag (i : nat) (calls : list (Call * bool)) : list Effect :=
  (λ c, EngineCall i c.1 c.2) <$> calls.

(** ** The environment the code cannot look into *)

Class Environment := {
  (* the SDP text the engine writes for a connection *)
  offer_sdp : PeerConnection → string;
  (* the JSON text of a session description *)
  json_text : SessionDescription → string;
  (* the order in which [range] visits a map *)
  map_range : gmap string TrackLocalStaticRTP → list (string * TrackLocalStaticRTP);
  map_range_perm : ∀ m, map_range m ≡ₚ map_to_list m;
  (* rtp.Packet.Unmarshal on the reused packet object; [None] is an error *)
  rtp_Unmarshal : Packet → list byte → option Packet;
  (* json.Unmarshal of the data field of a candidate or answer message *)
  decode_candidate : string → option ICECandidateInit;
  decode_description : string → option SessionDescription;
}.

(** ** Process state *)

(** The two registries that [listLock] guards, and the failure script: the
    outcome of the fallible calls to come, in call order ([true] is an
    error; when the script is used up every call succeeds). *)
Record World := {
  peerConnections : list peerConnectionState;
  trackLocals : gmap string TrackLocalStaticRTP;
  faults : list bool;
}.

Definition next_fault (fs : list bool) : bool * list bool :=
  match fs with
  | [] => (false, [])
  | b :: fs' => (b, fs')
  end.

(** ** Engine calls on one connection

    A computation reads and updates one connection and the failure script,
    logs its calls, and stops at the first call that fails ([None]). *)

Definition Eng (A : Type) : Type :=
  PeerConnection → list bool → option A * PeerConnection * list bool * list (Call * bool).

Definition eng_ret {A} (a : A) : Eng A :=
  λ pc fs, (Some a, pc, fs, []).

Definition eng_bind {A B} (m : Eng A) (k : A → Eng B) : Eng B :=
  λ pc fs,
    let '(r, pc1, fs1, cs1) := m pc fs in
    match r with
    | None => (None, pc1, fs1, cs1)
    | Some a => let '(r2, pc2, fs2, cs2) := k a pc1 fs1 in (r2, pc2, fs2, cs1 ++ cs2)
    end.

Definition eng_get : Eng PeerConnection :=
  λ pc fs, (Some pc, pc, fs, []).

Definition engine_call {A} (c : Call) (f : PeerConnection → A * PeerConnection) : Eng A :=
  λ pc fs,
    let '(fail, fs') := next_fault fs in
    if fail then (None, pc, fs', [(c, false)])
    else (Some (f pc).1, (f pc).2, fs', [(c, true)]).

#[global] Instance eng_mret : MRet Eng := @eng_ret.
#[global] Instance eng_mbind : MBind Eng := λ A B k m, eng_bind m k.

Section Reconciliation.
Context `{Environment}.

Definition RemoveTrack (sender : RTPSender) : Eng unit :=
  engine_call (CallRemoveTrack sender) (λ pc, ((), engine_RemoveTrack sender pc)).

Definition AddTrack (t : TrackLocalStaticRTP) : Eng unit :=
  engine_call (CallAddTrack t) (λ pc, ((), engine_AddTrack t pc)).

Definition CreateOffer : Eng SessionDescription :=
  engine_call CallCreateOffer
    (λ pc, ({| sd_Type := SDPTypeOffer; sd_SDP := offer_sdp pc |}, pc)).

Definition SetLocalDescription (offer : SessionDescription) : Eng unit :=
  engine_call (CallSetLocalDescription offer) (λ pc, ((), set_LocalDescription offer pc)).

Definition json_Marshal (offer : SessionDescription) : Eng string :=
  engine_call (CallMarshal offer) (λ pc, (json_text offer, pc)).

Definition WriteJSON (m : websocketMessage) : Eng unit :=
  engine_call (CallWriteJSON m) (λ pc, ((), pc)).

(** The loop over [GetSenders()]: note the bound track of every sender and
    remove the senders whose track has left the registry. *)
Fixpoint senders_loop (tracks : gmap string TrackLocalStaticRTP)
    (snapshot : list RTPSender) (existingSenders : gset string) : Eng (gset string) :=
  match snapshot with
  | [] => mret existingSenders
  | sender :: rest =>
    match sender_Track sender with
    | None => senders_loop tracks rest existingSenders
    | Some t =>
      let existingSenders := {[local_ID t]} ∪ existingSenders in
      match tracks !! local_ID t with
      | Some _ => senders_loop tracks rest existingSenders
      | None =>
        _ ← RemoveTrack sender;
        senders_loop tracks rest existingSenders
      end
    end
  end.

(** The loop over [GetReceivers()]. *)
Fixpoint receivers_loop (rs : list RTPReceiver) (existingSenders : gset string) : gset string :=
  match rs with
  | [] => existingSenders
  | receiver :: rest =>
    match receiver_Track receiver with
    | None => receivers_loop rest existingSenders
    | Some t => receivers_loop rest ({[remote_ID t]} ∪ existingSenders)
    end
  end.

(** The loop over [trackLocals]. *)
Fixpoint tracks_loop (entries : list (string * TrackLocalStaticRTP))
    (existingSenders : gset string) : Eng unit :=
  match entries with
  | [] => mret ()
  | (trackID, t) :: rest =>
    if decide (trackID ∈ existingSenders) then tracks_loop rest existingSenders
    else
      _ ← AddTrack t;
      tracks_loop rest existingSenders
  end.

(** The body of the loop of [attemptSync] for a connection that is not
    closed.  [None] is the [return true] of a failed step. *)
Definition syncSession (tracks : gmap string TrackLocalStaticRTP) : Eng unit :=
  pc0 ← eng_get;
  existingSenders ← senders_loop tracks (GetSenders pc0) ∅;
  pc1 ← eng_get;
  let existingSenders := receivers_loop (GetReceivers pc1) existingSenders in
  _ ← tracks_loop (map_range tracks) existingSenders;
  offer ← CreateOffer;
  _ ← SetLocalDescription offer;
  offerString ← json_Marshal offer;
  WriteJSON {| Event := "offer"; Data := offerString |}.

Definition set_peerConnection (pc : PeerConnection) (s : peerConnectionState) : peerConnectionState :=
  {| peerConnection := pc; websocket := websocket s |}.

(** [for i := range peerConnections] from index [i], with [n] entries left.
    The range is fixed when the loop starts and the list only changes on the
    way out, so the lookup at [i] never misses. *)
Fixpoint attemptSync_from (n i : nat) (w : World) : bool * World * list Effect :=
  match n with
  | 0 => (false, w, [])
  | S n' =>
    match peerConnections w !! i with
    | None => (false, w, [])
    | Some s =>
      if decide (ConnectionState (peerConnection s) = PeerConnectionStateClosed) then
        (true,
         {| peerConnections := take i (peerConnections w) ++ drop (S i) (peerConnections w);
            trackLocals := trackLocals w;
            faults := faults w |},
         [])
      else
        let '(r, pc', fs', calls) := syncSession (trackLocals w) (peerConnection s) (faults w) in
        let w1 := {| peerConnections := <[i := set_peerConnection pc' s]> (peerConnections w);
                     trackLocals := trackLocals w;
                     faults := fs' |} in
        let evs := tag i calls in
        match r with
        | None => (true, w1, evs)
        | Some _ =>
          let '(tryAgain, w2, evs2) := attemptSync_from n' (S i) w1 in
          (tryAgain, w2, evs ++ evs2)
        end
    end
  end.

Definition attemptSync (w : World) : bool * World * list Effect :=
  attemptSync_from (length (peerConnections w)) 0 w.

(** The retry loop [for syncAttempt := 0; ; syncAttempt++] with its exit at
    [syncAttempt == 25], taken literally; [fuel] bounds the iterations. *)
Fixpoint sync_loop_counting (fuel syncAttempt : nat) (w : World) : option (World * list Effect) :=
  match fuel with
  | 0 => None
  | S fuel' =>
    if decide (syncAttempt = 25) then Some (w, [GoSleepSignal (time_Second * 3)])
    else
      let '(tryAgain, w', evs) := attemptSync w in
      if tryAgain then
        match sync_loop_counting fuel' (S syncAttempt) w' with
        | Some (w'', evs') => Some (w'', evs ++ evs')
        | None => None
        end
      else Some (w', evs)
  end.

(** The same loop by recursion on the attempts that are left,
    [25 - syncAttempt] (see [sync_loop_counting_total]). *)
Fixpoint sync_loop (attemptsLeft : nat) (w : World) : World * list Effect :=
  match attemptsLeft with
  | 0 => (w, [GoSleepSignal (time_Second * 3)])
  | S k =>
    let '(tryAgain, w', evs) := attemptSync w in
    if tryAgain then
      let '(w'', evs') := sync_loop k w' in (w'', evs ++ evs')
    else (w', evs)
  end.

Definition receiver_keyframes (i : nat) (rs : list RTPReceiver) : list Effect :=
  omap (λ r, (λ t, WriteRTCP i (remote_SSRC t)) <$> receiver_Track r) rs.

(** [for i := range peerConnections] of [dispatchKeyFrame], from index [i]. *)
Fixpoint keyframes_from (i : nat) (sessions : list peerConnectionState) : list Effect :=
  match sessions with
  | [] => []
  | s :: rest =>
    receiver_keyframes i (GetReceivers (peerConnection s)) ++ keyframes_from (S i) rest
  end.

Definition dispatchKeyFrame (w : World) : list Effect :=
  keyframes_from 0 (peerConnections w).

Definition signalPeerConnections (w : World) : World * list Effect :=
  let '(w', evs) := sync_loop 25 w in
  (w', evs ++ dispatchKeyFrame w').

Definition set_trackLocals (m : gmap string TrackLocalStaticRTP) (w : World) : World :=
  {| peerConnections := peerConnections w; trackLocals := m; faults := faults w |}.

Definition addTrack (t : TrackRemote) (w : World) : TrackLocalStaticRTP * World * list Effect :=
  let trackLocal := NewTrackLocalStaticRTP (remote_Codec t) (remote_ID t) (remote_StreamID t) in
  let '(w', evs) := signalPeerConnections (set_trackLocals (<[remote_ID t := trackLocal]> (trackLocals w)) w) in
  (trackLocal, w', evs).

Definition removeTrack (t : TrackLocalStaticRTP) (w : World) : World * list Effect :=
  signalPeerConnections (set_trackLocals (delete (local_ID t) (trackLocals w)) w).

End Reconciliation.

(** ** The RTP relay loop of the [OnTrack] callback *)

(** One turn of the loop as the transport decides it: what [t.Read] returns
    ([None] is an error) and whether the following [WriteRTP] fails. *)
Record Turn := {
  turn_Read : option (list byte);
  turn_WriteFails : bool;
}.

Inductive LoopState :=
  | Blocked    (* waiting in the next read: the loop is running *)
  | Returned.  (* the function has returned *)

#[global] Instance LoopState_eq_dec : EqDecision LoopState.
Proof. solve_decision. Defined.

Inductive LogLine :=
  | LogUnmarshalRTP
  | LogReadMessage
  | LogUnmarshalMessage
  | LogUnmarshalCandidate
  | LogAddICECandidate
  | LogUnmarshalAnswer
  | LogSetRemoteDescription.

#[global] Instance LogLine_eq_dec : EqDecision LogLine.
Proof. solve_decision. Defined.

Record RelayRun := {
  relay_state : LoopState;
  relay_reads : nat;             (* calls of t.Read *)
  relay_written : list Packet;   (* packets handed to trackLocal.WriteRTP *)
  relay_log : list LogLine;
}.

Definition relay_step (p : Packet) (r : RelayRun) : RelayRun :=
  {| relay_state := relay_state r;
     relay_reads := S (relay_reads r);
     relay_written := p :: relay_written r;
     relay_log := relay_log r |}.

(** rtpPkt.Extension = false; rtpPkt.Extensions = nil *)
Definition clear_extensions (p : Packet) : Packet :=
  {| Version := Version p;
     Padding := Padding p;
     Extension := false;
     Marker := Marker p;
     PayloadType := PayloadType p;
     SequenceNumber := SequenceNumber p;
     Timestamp := Timestamp p;
     SSRC := SSRC p;
     CSRC := CSRC p;
     ExtensionProfile := ExtensionProfile p;
     Extensions := [];
     Payload := Payload p |}.

(** The zero value of [rtp.Packet]. *)
Definition empty_Packet : Packet :=
  {| Version := 0; Padding := false; Extension := false; Marker := false;
     PayloadType := 0; SequenceNumber := 0; Timestamp := 0; SSRC := 0;
     CSRC := []; ExtensionProfile := 0; Extensions := []; Payload := [] |}.

Section Relay.
Context `{Environment}.

Fixpoint relay_loop (rtpPkt : Packet) (turns : list Turn) : RelayRun :=
  match turns with
  | [] => {| relay_state := Blocked; relay_reads := 0; relay_written := []; relay_log := [] |}
  | turn :: rest =>
    match turn_Read turn with
    | None =>
      {| relay_state := Returned; relay_reads := 1; relay_written := []; relay_log := [] |}
    | Some data =>
      match rtp_Unmarshal rtpPkt data with
      | None =>
        {| relay_state := Returned; relay_reads := 1; relay_written := [];
           relay_log := [LogUnmarshalRTP] |}
      | Some parsed =>
        let rtpPkt := clear_extensions parsed in
        if turn_WriteFails turn then
          {| relay_state := Returned; relay_reads := 1; relay_written := [rtpPkt];
             relay_log := [] |}
        else relay_step rtpPkt (relay_loop rtpPkt rest)
      end
    end
  end.

(** The callback: publish, relay, and unpublish when the loop returns.
    [others] is what the other tasks did to the shared state while the loop
    was relaying. *)
Definition OnTrack (t : TrackRemote) (turns : list Turn) (others : World → World) (w : World)
  : World * list Effect * RelayRun :=
  let '(trackLocal, w1, evs1) := addTrack t w in
  let run := relay_loop empty_Packet turns in
  match relay_state run with
  | Blocked => (others w1, evs1, run)
  | Returned =>
    let '(w2, evs2) := removeTrack trackLocal (others w1) in
    (w2, evs1 ++ evs2, run)
  end.

End Relay.

(** ** The signaling read loop of [websocketHandler] *)

(** An inbound frame, by what [c.ReadMessage] and
    [json.Unmarshal(raw, &message)] make of it:
    - the read fails;
    - [json.Unmarshal] returns an error: the text is not JSON, or it is a
      JSON value that does not decode into the envelope (a number, a string,
      an array, an object whose event or data is not a string);
    - the text is the JSON literal [null]: [json.Unmarshal] returns no error
      and sets the pointer [message] to nil;
    - the text is an object: [json.Unmarshal] returns no error and stores the
      string members it carries. *)
Inductive Frame :=
  | ReadMessageFails
  | InvalidJSON
  | JSONNull
  | JSONObject (event data : option string).

Record HandlerRun := {
  handler_state : LoopState;
  handler_panicked : bool;                       (* the handler was left by a panic *)
  handler_pc : PeerConnection;
  handler_websocket_open : bool;
  handler_message : option websocketMessage;     (* the pointer [message]; [None] is nil *)
  handler_faults : list bool;
  handler_log : list LogLine;
}.

(** [json.Unmarshal] into the reused [message] overwrites the fields the
    object carries and keeps the others. *)
Definition decode_into (event data : option string) (message : websocketMessage) : websocketMessage :=
  {| Event := default (Event message) event; Data := default (Data message) data |}.

Section Signaling.
Context `{Environment}.

Definition stop (message : websocketMessage) (pc : PeerConnection) (fs : list bool)
    (log : list LogLine) : HandlerRun :=
  {| handler_state := Returned; handler_panicked := false;
     handler_pc := pc; handler_websocket_open := true;
     handler_message := Some message; handler_faults := fs; handler_log := log |}.

(** [message.Event] on the nil pointer: the handler is left by a panic, past
    its [log.Println] calls. *)
Definition nil_dereference (pc : PeerConnection) (fs : list bool) (log : list LogLine)
  : HandlerRun :=
  {| handler_state := Returned; handler_panicked := true;
     handler_pc := pc; handler_websocket_open := true;
     handler_message := None; handler_faults := fs; handler_log := log |}.

Fixpoint read_loop (frames : list Frame) (message : websocketMessage) (pc : PeerConnection)
    (fs : list bool) (log : list LogLine) : HandlerRun :=
  match frames with
  | [] =>
    {| handler_state := Blocked; handler_panicked := false;
       handler_pc := pc; handler_websocket_open := true;
       handler_message := Some message; handler_faults := fs; handler_log := log |}
  | frame :: rest =>
    match frame with
    | ReadMessageFails => stop message pc fs (log ++ [LogReadMessage])
    | InvalidJSON => stop message pc fs (log ++ [LogUnmarshalMessage])
    | JSONNull => nil_dereference pc fs log
    | JSONObject event data =>
      let message := decode_into event data message in
      if decide (Event message = "candidate") then
        match decode_candidate (Data message) with
        | None => stop message pc fs (log ++ [LogUnmarshalCandidate])
        | Some candidate =>
          let '(fail, fs') := next_fault fs in
          if fail then stop message pc fs' (log ++ [LogAddICECandidate])
          else read_loop rest message (add_RemoteCandidate candidate pc) fs' log
        end
      else if decide (Event message = "answer") then
        match decode_description (Data message) with
        | None => stop message pc fs (log ++ [LogUnmarshalAnswer])
        | Some answer =>
          let '(fail, fs') := next_fault fs in
          if fail then stop message pc fs' (log ++ [LogSetRemoteDescription])
          else read_loop rest message (set_RemoteDescription answer pc) fs' log
        end
      else read_loop rest message pc fs log
    end
  end.

(** The read loop and the deferred [peerConnection.Close()] and [c.Close()]
    that run when the handler returns or panics. *)
Definition websocketHandler_read (frames : list Frame) (pc : PeerConnection) (fs : list bool)
  : HandlerRun :=
  let run := read_loop frames {| Event := ""; Data := "" |} pc fs [] in
  match handler_state run with
  | Blocked => run
  | Returned =>
    {| handler_state := Returned;
       handler_panicked := handler_panicked run;
       handler_pc := set_ConnectionState PeerConnectionStateClosed (handler_pc run);
       handler_websocket_open := false;
       handler_message := handler_message run;
       handler_faults := handler_faults run;
       handler_log := handler_log run |}
  end.

End Signaling.

(** ** Joining: [websocketHandler] up to its read loop *)

Inductive RTPCodecType := RTPCodecTypeVideo | RTPCodecTypeAudio.

#[global] Instance RTPCodecType_eq_dec : EqDecision RTPCodecType.
Proof. solve_decision. Defined.

(** The lines the setup can log, by the call that failed. *)
Inductive SetupLine :=
  | LogUpgrade
  | LogNewPeerConnection
  | LogAddTransceiverFromKind (typ : RTPCodecType).

#[global] Instance SetupLine_eq_dec : EqDecision SetupLine.
Proof. solve_decision. Defined.

(** The deferred calls that run when the handler returns. *)
Inductive Deferred :=
  | DeferredCloseWebsocket (c : threadSafeWriter)
  | DeferredClosePeerConnection.

(** The connection [webrtc.NewPeerConnection] hands out. *)
Definition NewPeerConnection : PeerConnection :=
  {| ConnectionState := PeerConnectionStateNew; GetSenders := []; GetReceivers := [];
     LocalDescription := None; RemoteDescription := None; RemoteCandidates := [] |}.

Definition set_Receivers (rs : list RTPReceiver) (pc : PeerConnection) : PeerConnection :=
  {| ConnectionState := ConnectionState pc;
     GetSenders := GetSenders pc;
     GetReceivers := rs;
     LocalDescription := LocalDescription pc;
     RemoteDescription := RemoteDescription pc;
     RemoteCandidates := RemoteCandidates pc |}.

(** A receiver that no track is bound to yet: [Track()] is nil. *)
Definition unbound_receiver : RTPReceiver := {| receiver_Track := None |}.

(** [AddTransceiverFromKind] with direction recvonly gives the connection
    one more receiver and no sender. *)
Definition engine_AddTransceiverFromKind (typ : RTPCodecType) (pc : PeerConnection)
  : PeerConnection :=
  set_Receivers (GetReceivers pc ++ [unbound_receiver]) pc.

(** [for _, typ := range kinds]: [inr typ] is the [return] after the call
    for [typ] failed. *)
Fixpoint transceivers_loop (kinds : list RTPCodecType) (pc : PeerConnection) (fs : list bool)
  : (PeerConnection + RTPCodecType) * list bool :=
  match kinds with
  | [] => (inl pc, fs)
  | typ :: rest =>
    let '(fail, fs') := next_fault fs in
    if fail then (inr typ, fs')
    else transceivers_loop rest (engine_AddTransceiverFromKind typ pc) fs'
  end.

Definition set_faults (fs : list bool) (w : World) : World :=
  {| peerConnections := peerConnections w; trackLocals := trackLocals w; faults := fs |}.

Record JoinRun := {
  join_joined : bool;              (* the handler has reached its read loop *)
  join_world : World;
  join_events : list Effect;
  join_log : list SetupLine;
  join_deferred : list Deferred;   (* the deferred calls that have run, in order *)
}.

Section Joining.
Context `{Environment}.

(** [websocketHandler] from the upgrade to the call of
    [signalPeerConnections] before the read loop.  [upgrade] is what
    [upgrader.Upgrade] returns, [None] for an error; the outcomes of
    [NewPeerConnection] and of the two [AddTransceiverFromKind] are the next
    three entries of the failure script.  The callbacks registered between
    the append and the reconciliation run later, on the engine's side, and
    the deferred calls run when the handler returns. *)
Definition websocketHandler_setup (upgrade : option threadSafeWriter) (w : World) : JoinRun :=
  match upgrade with
  | None =>
    {| join_joined := false; join_world := w; join_events := [];
       join_log := [LogUpgrade]; join_deferred := [] |}
  | Some c =>
    let '(fail, fs1) := next_fault (faults w) in
    if fail then
      {| join_joined := false; join_world := set_faults fs1 w; join_events := [];
         join_log := [LogNewPeerConnection]; join_deferred := [DeferredCloseWebsocket c] |}
    else
      match transceivers_loop [RTPCodecTypeVideo; RTPCodecTypeAudio] NewPeerConnection fs1 with
      | (inr typ, fs2) =>
        {| join_joined := false; join_world := set_faults fs2 w; join_events := [];
           join_log := [LogAddTransceiverFromKind typ];
           join_deferred := [DeferredClosePeerConnection; DeferredCloseWebsocket c] |}
      | (inl peerConnection, fs2) =>
        let w1 :=
          {| peerConnections :=
               peerConnections w ++ [{| peerConnection := peerConnection; websocket := c |}];
             trackLocals := trackLocals w;
             faults := fs2 |} in
        let '(w2, evs) := signalPeerConnections w1 in
        {| join_joined := true; join_world := w2; join_events := evs;
           join_log := []; join_deferred := [] |}
      end
  end.

End Joining.

(** ** Publishing over time

    The relay loops that are running, each with the track object it
    published, next to the shared state.  A step is one [addTrack] at the
    start of a relay loop or the [removeTrack] at the end of one. *)

Record Relays := {
  shared : World;
  running : list TrackLocalStaticRTP;
}.

Inductive RelayEvent :=
  | TrackArrives (t : TrackRemote)   (* OnTrack is called: a relay loop starts *)
  | LoopEnds (g : nat).              (* the loop at position g of [running] returns *)

Section Publishing.
Context `{Environment}.

Definition relays_step (st : Relays) (e : RelayEvent) : Relays :=
  match e with
  | TrackArrives t =>
    let '(trackLocal, w', _) := addTrack t (shared st) in
    {| shared := w'; running := running st ++ [trackLocal] |}
  | LoopEnds g =>
    match running st !! g with
    | None => st
    | Some trackLocal =>
      {| shared := (removeTrack trackLocal (shared st)).1; running := delete g (running st) |}
    end
  end.

Definition relays_run (events : list RelayEvent) (st : Relays) : Relays :=
  foldl relays_step st events.

End Publishing.

Definition running_ids (st : Relays) : gset string :=
  list_to_set (local_ID <$> running st).

(** The registry invariant: the keys of the registry are the identifiers of
    the running relay loops. *)
Definition registry_consistent (st : Relays) : Prop :=
  dom (trackLocals (shared st)) = running_ids st.

(** No track arrives under an identifier that a running loop already relays. *)
Fixpoint distinct_arrivals `{Environment} (events : list RelayEvent) (st : Relays) : Prop :=
  match events with
  | [] => True
  | e :: rest =>
    match e with
    | TrackArrives t => remote_ID t ∉ running_ids st
    | LoopEnds _ => True
    end ∧ distinct_arrivals rest (relays_step st e)
  end.

(** ** Vocabulary of the statements *)

Definition bound_ID (s : RTPSender) : option string :=
  local_ID <$> sender_Track s.

Definition received_ID (r : RTPReceiver) : option string :=
  remote_ID <$> receiver_Track r.

(** The track identifiers bound to the senders of a connection. *)
Definition sender_ids (pc : PeerConnection) : gset string :=
  list_to_set (omap bound_ID (GetSenders pc)).

(** The track identifiers bound to its receivers. *)
Definition receiver_ids (pc : PeerConnection) : gset string :=
  list_to_set (omap received_ID (GetReceivers pc)).

(** The "already accounted for" set of step 2. *)
Definition accounted_for (pc : PeerConnection) : gset string :=
  sender_ids pc ∪ receiver_ids pc.

(** A sender whose bound track has left the registry. *)
Definition stale (tracks : gmap string TrackLocalStaticRTP) (s : RTPSender) : Prop :=
  ∃ t, sender_Track s = Some t ∧ tracks !! local_ID t = None.

#[global] Instance stale_dec tracks s : Decision (stale tracks s).
Proof.
  unfold stale. destruct (sender_Track s) as [t|].
  - destruct (tracks !! local_ID t) eqn:E.
    + right. intros (t' & Ht & Hn). congruence.
    + left. eauto.
  - right. intros (t' & Ht & _). discriminate.
Defined.

(** Every registry entry is stored under the identifier of its track, as
    [addTrack] stores it. *)
Definition registry_wf (tracks : gmap string TrackLocalStaticRTP) : Prop :=
  ∀ k t, tracks !! k = Some t → local_ID t = k.

(** The calls made for the session at index [j], in order. *)
Definition session_calls (j : nat) (evs : list Effect) : list (Call * bool) :=
  omap (λ e, match e with
             | EngineCall i c ok => if decide (i = j) then Some (c, ok) else None
             | _ => None
             end) evs.

(** The session at index [j] went through the whole loop body: its offer
    was written to its channel. *)
Definition completed (j : nat) (evs : list Effect) : Prop :=
  ∃ m, EngineCall j (CallWriteJSON m) true ∈ evs.

(** The indices of the sessions whose processing reached the end of the loop
    body, in the order of the events. *)
Definition processed (evs : list Effect) : list nat :=
  omap (λ e, match e with
             | EngineCall i (CallWriteJSON _) true => Some i
             | _ => None
             end) evs.

(** The deferred retries started. *)
Definition deferred (evs : list Effect) : list Z :=
  omap (λ e, match e with GoSleepSignal d => Some d | _ => None end) evs.

Definition is_adjustment (c : Call * bool) : Prop :=
  match c.1 with
  | CallRemoveTrack _ | CallAddTrack _ => c.2 = true
  | _ => False
  end.


(** What a computation leaves alone: everything but the senders and the
    local description. *)
Definition same_peer (pc pc' : PeerConnection) : Prop :=
  ConnectionState pc' = ConnectionState pc ∧
  GetReceivers pc' = GetReceivers pc ∧
  RemoteDescription pc' = RemoteDescription pc ∧
  RemoteCandidates pc' = RemoteCandidates pc.


(** The calls a pass makes for a session when nothing fails. *)
Definition remove_calls (tracks : gmap string TrackLocalStaticRTP) (snapshot : list RTPSender)
  : list (Call * bool) :=
  (λ s, (CallRemoveTrack s, true)) <$> filter (stale tracks) snapshot.

(** The senders left when the engine has detached [gone]. *)
Definition detach_all (gone ss : list RTPSender) : list RTPSender :=
  foldl (λ acc s, detach s acc) ss gone.


Definition missing (ex : gset string) (entries : list (string * TrackLocalStaticRTP))
  : list (string * TrackLocalStaticRTP) :=
  filter (λ kt, kt.1 ∉ ex) entries.

Definition add_calls (ex : gset string) (entries : list (string * TrackLocalStaticRTP))
  : list (Call * bool) :=
  (λ kt, (CallAddTrack kt.2, true)) <$> missing ex entries.


Section OfferCalls.
Context `{Environment}.

Definition offer_calls (offer : SessionDescription) : list (Call * bool) :=
  [(CallCreateOffer, true);
   (CallSetLocalDescription offer, true);
   (CallMarshal offer, true);
   (CallWriteJSON {| Event := "offer"; Data := json_text offer |}, true)].

(** The offer [CreateOffer] returns on a connection. *)
Definition created_offer (pc : PeerConnection) : SessionDescription :=
  {| sd_Type := SDPTypeOffer; sd_SDP := offer_sdp pc |}.

(** The connection after the sender adjustments of a pass that goes through
    for it: the engine has removed the stale senders, in the order of
    [GetSenders()], and then added the missing tracks, in the order of the
    range over the registry. *)
Definition adjusted_connection (tracks : gmap string TrackLocalStaticRTP) (pc : PeerConnection)
  : PeerConnection :=
  foldl (λ acc kt, engine_AddTrack kt.2 acc)
    (foldl (λ acc sender, engine_RemoveTrack sender acc) pc
       (filter (stale tracks) (GetSenders pc)))
    (missing (accounted_for pc) (map_range tracks)).

End OfferCalls.

Section Retries.
Context `{Environment}.

(** [n] passes in a row that all report "retry". *)
Fixpoint retries (n : nat) (w : World) : option (World * list Effect) :=
  match n with
  | 0 => Some (w, [])
  | S k =>
    let '(tryAgain, w', evs) := attemptSync w in
    if tryAgain then
      match retries k w' with
      | Some (w'', evs') => Some (w'', evs ++ evs')
      | None => None
      end
    else None
  end.

(** The course of one pass from index [i]: the derivation follows the
    iterations of the loop. *)
Inductive pass : nat → World → bool → World → list Effect → Prop :=
  | pass_done i w :
      (length (peerConnections w) ≤ i)%nat →
      pass i w false w []
  | pass_closed i w s :
      peerConnections w !! i = Some s →
      ConnectionState (peerConnection s) = PeerConnectionStateClosed →
      pass i w true
        {| peerConnections := delete i (peerConnections w);
           trackLocals := trackLocals w;
           faults := faults w |}
        []
  | pass_failed i w s pc' fs' calls :
      peerConnections w !! i = Some s →
      ConnectionState (peerConnection s) ≠ PeerConnectionStateClosed →
      syncSession (trackLocals w) (peerConnection s) (faults w) = (None, pc', fs', calls) →
      pass i w true
        {| peerConnections := <[i := set_peerConnection pc' s]> (peerConnections w);
           trackLocals := trackLocals w;
           faults := fs' |}
        (tag i calls)
  | pass_next i w s pc' fs' calls tryAgain w2 evs2 :
      peerConnections w !! i = Some s →
      ConnectionState (peerConnection s) ≠ PeerConnectionStateClosed →
      syncSession (trackLocals w) (peerConnection s) (faults w) = (Some (), pc', fs', calls) →
      pass (S i)
        {| peerConnections := <[i := set_peerConnection pc' s]> (peerConnections w);
           trackLocals := trackLocals w;
           faults := fs' |}
        tryAgain w2 evs2 →
      pass i w tryAgain w2 (tag i calls ++ evs2).

End Retries.

(** ** Vocabulary of the further statements *)

(** What reconciliation never changes of a registered session: its channel,
    the state of its connection and its receivers. *)
Definition footprint (s : peerConnectionState)
  : threadSafeWriter * PeerConnectionState * list RTPReceiver :=
  (websocket s, ConnectionState (peerConnection s), GetReceivers (peerConnection s)).

(** The connection of a session with this footprint is not closed. *)
Definition is_open (fp : threadSafeWriter * PeerConnectionState * list RTPReceiver) : Prop :=
  fp.1.2 ≠ PeerConnectionStateClosed.

#[global] Instance is_open_dec fp : Decision (is_open fp).
Proof. unfold is_open. apply _. Defined.

(** The sessions of the registry whose connection is closed. *)
Definition closed_count (w : World) : nat :=
  length (filter (λ fp, ¬ is_open fp) (footprint <$> peerConnections w)).

(** A session is subscribed when its senders are bound to published tracks
    only and every published track is bound to one of its senders or of its
    receivers. *)
Definition subscribed (tracks : gmap string TrackLocalStaticRTP) (pc : PeerConnection) : Prop :=
  sender_ids pc ⊆ dom tracks ∧ dom tracks ⊆ accounted_for pc.

(** The events of calls that failed. *)
Definition is_failure (e : Effect) : Prop :=
  match e with EngineCall _ _ false => True | _ => False end.

#[global] Instance is_failure_dec e : Decision (is_failure e).
Proof. destruct e as [i c []| |]; simpl; apply _. Defined.

(** The footprints of the registered sessions, in order. *)
Definition footprints (w : World) := footprint <$> peerConnections w.

(** [w'] has the sessions of [w] but for some closed ones. *)
Definition pruned (w w' : World) : Prop :=
  footprints w' `sublist_of` footprints w ∧
  filter is_open (footprints w') = filter is_open (footprints w).

(** A computation is regular when it leaves the connection's state, receivers
    and remote side alone, makes no call after one that failed, and cannot
    fail when the failure script is empty. *)
Definition regular {A} (m : Eng A) : Prop :=
  (∀ pc fs r pc' fs' cs, m pc fs = (r, pc', fs', cs) →
     same_peer pc pc' ∧
     match r with
     | Some _ => Forall (λ c, c.2 = true) cs
     | None => ∃ cs0 c, cs = cs0 ++ [(c, false)] ∧ Forall (λ c : Call * bool, c.2 = true) cs0
     end) ∧
  (∀ pc, ∃ a pc' cs, m pc [] = (Some a, pc', [], cs)).

(** The message as the switch of the read loop sees it, frame after frame,
    as long as the frames are objects. *)
Fixpoint envelopes (frames : list Frame) (message : websocketMessage) : list websocketMessage :=
  match frames with
  | JSONObject event data :: rest =>
    decode_into event data message :: envelopes rest (decode_into event data message)
  | _ => []
  end.

Section Accepted.
Context `{Environment}.

(** The candidates carried by the "candidate" messages among them. *)
Definition candidates_of (messages : list websocketMessage) : list ICECandidateInit :=
  omap (λ m, if decide (Event m = "candidate") then decode_candidate (Data m) else None) messages.

(** The descriptions carried by the "answer" messages among them. *)
Definition answers_of (messages : list websocketMessage) : list SessionDescription :=
  omap (λ m, if decide (Event m = "answer") then decode_description (Data m) else None) messages.

End Accepted.

(** The footprint of a session that has just joined. *)
Definition joined_footprint (c : threadSafeWriter)
  : threadSafeWriter * PeerConnectionState * list RTPReceiver :=
  (c, PeerConnectionStateNew, [unbound_receiver; unbound_receiver]).

(** ** A concrete environment and concrete states for the examples *)

#[global] Instance demo_environment : Environment := {|
  offer_sdp := λ pc, "v=0";
  json_text := λ d, sd_SDP d;
  map_range := map_to_list;
  map_range_perm := λ m, reflexivity (map_to_list m);
  rtp_Unmarshal := λ p data, Some p;
  decode_candidate := λ s, Some {| ice_Candidate := s |};
  decode_description := λ s, Some {| sd_Type := SDPTypeAnswer; sd_SDP := s |};
|}.

Definition vp8 : RTPCodecCapability :=
  {| MimeType := "video/VP8"; ClockRate := 90000; Channels := 0 |}.

Definition remote_video : TrackRemote :=
  {| remote_ID := "video"; remote_StreamID := "pion"; remote_Codec := vp8; remote_SSRC := 7 |}.

Definition local_video : TrackLocalStaticRTP :=
  NewTrackLocalStaticRTP vp8 "video" "pion".

Definition local_old : TrackLocalStaticRTP :=
  NewTrackLocalStaticRTP vp8 "old" "pion".

Definition connection (st : PeerConnectionState) (ss : list RTPSender) (rs : list RTPReceiver)
  : PeerConnection :=
  {| ConnectionState := st; GetSenders := ss; GetReceivers := rs;
     LocalDescription := None; RemoteDescription := None; RemoteCandidates := [] |}.

Definition session (n : nat) (pc : PeerConnection) : peerConnectionState :=
  {| peerConnection := pc; websocket := {| Conn := n |} |}.

Definition empty_World : World :=
  {| peerConnections := []; trackLocals := ∅; faults := [] |}.

Definition sender_video : RTPSender := {| sender_handle := 1; sender_Track := Some local_video |}.
Definition sender_old : RTPSender := {| sender_handle := 1; sender_Track := Some local_old |}.
Definition receiver_video : RTPReceiver := {| receiver_Track := Some remote_video |}.

(** A session that already receives the video track. *)
Definition viewer : PeerConnection := connection PeerConnectionStateConnected [sender_video] [].
(** The session that publishes the video track. *)
Definition publisher : PeerConnection := connection PeerConnectionStateConnected [] [receiver_video].
(** A session whose connection is closed. *)
Definition leaver : PeerConnection := connection PeerConnectionStateClosed [] [].
(** A session that still sends a track that was unpublished. *)
Definition stale_viewer : PeerConnection := connection PeerConnectionStateConnected [sender_old] [].

Definition video_registry : gmap string TrackLocalStaticRTP := {["video" := local_video]}.

Definition w_resync : World :=
  {| peerConnections := [session 0 viewer]; trackLocals := video_registry; faults := [] |}.

Definition w_churn : World :=
  {| peerConnections := [session 0 stale_viewer]; trackLocals := video_registry; faults := [] |}.

Definition w_publisher : World :=
  {| peerConnections := [session 0 publisher]; trackLocals := video_registry; faults := [] |}.

(** A session whose connection has failed and is not closed yet. *)
Definition failed_peer : PeerConnection := connection PeerConnectionStateFailed [] [].

Definition w_failed : World :=
  {| peerConnections := [session 0 failed_peer]; trackLocals := video_registry; faults := [] |}.


Definition w_leaving : World :=
  {| peerConnections := [session 0 viewer; session 1 leaver; session 2 publisher];
     trackLocals := video_registry; faults := [] |}.

(** One session and 25 injected failures: every pass fails at its first call. *)
Definition w_failing : World :=
  {| peerConnections := [session 0 viewer]; trackLocals := video_registry;
     faults := replicate 25 true |}.

(** A second inbound track that carries the same identifier. *)
Definition remote_video_again : TrackRemote :=
  {| remote_ID := "video"; remote_StreamID := "other"; remote_Codec := vp8; remote_SSRC := 9 |}.

Definition no_relays : Relays := {| shared := empty_World; running := [] |}.

Definition good_turn : Turn := {| turn_Read := Some []; turn_WriteFails := false |}.
Definition read_error : Turn := {| turn_Read := None; turn_WriteFails := false |}.

(** Twenty-five closed sessions in front of an open one. *)
Definition w_crowded : World :=
  {| peerConnections := replicate 25 (session 0 leaver) ++ [session 1 viewer];
     trackLocals := video_registry; faults := [] |}.

(** Two sessions and a failure script that lets one call through. *)
Definition w_flaky : World :=
  {| peerConnections := [session 0 stale_viewer; session 1 publisher];
     trackLocals := video_registry; faults := [false; true] |}.

(** A candidate, a second candidate that leaves the event out, an answer. *)
Definition trickle : list Frame :=
  [JSONObject (Some "candidate") (Some "a"); JSONObject None (Some "b");
   JSONObject (Some "answer") (Some "sdp")].

(** * Proofs *)

(** ** Runs of engine computations *)

Lemma eng_bind_run {A B} (m : Eng A) (k : A → Eng B) pc fs r pc2 fs2 cs :
  eng_bind m k pc fs = (r, pc2, fs2, cs) →
  (r = None ∧ m pc fs = (None, pc2, fs2, cs)) ∨
  (∃ a pc1 fs1 cs1 cs2,
      m pc fs = (Some a, pc1, fs1, cs1) ∧ k a pc1 fs1 = (r, pc2, fs2, cs2) ∧ cs = cs1 ++ cs2).
Proof.
  unfold eng_bind. destruct (m pc fs) as [[[r1 pc1] fs1] cs1].
  destruct r1 as [a|].
  - destruct (k a pc1 fs1) as [[[r2 pc2'] fs2'] cs2] eqn:Ek.
    intros [= <- <- <- <-]. right. by exists a, pc1, fs1, cs1, cs2.
  - intros [= <- <- <- <-]. by left.
Qed.

Lemma engine_call_run {A} (c : Call) (f : PeerConnection → A * PeerConnection) pc fs r pc' fs' cs :
  engine_call c f pc fs = (r, pc', fs', cs) →
  (r = None ∧ pc' = pc ∧ cs = [(c, false)]) ∨
  (r = Some (f pc).1 ∧ pc' = (f pc).2 ∧ cs = [(c, true)]).
Proof.
  unfold engine_call. destruct (next_fault fs) as [fail fs1]. destruct fail.
  - intros [= <- <- <- <-]. by left.
  - intros [= <- <- <- <-]. by right.
Qed.

Lemma same_peer_refl pc : same_peer pc pc.
Proof. by repeat split. Qed.

Lemma same_peer_trans pc1 pc2 pc3 : same_peer pc1 pc2 → same_peer pc2 pc3 → same_peer pc1 pc3.
Proof. unfold same_peer. intros (?&?&?&?) (?&?&?&?). repeat split; congruence. Qed.

Section SessionLemmas.
Context `{Environment}.

Lemma senders_loop_run tracks snapshot ex pc fs r pc' fs' cs :
  senders_loop tracks snapshot ex pc fs = (r, pc', fs', cs) →
  same_peer pc pc' ∧ LocalDescription pc' = LocalDescription pc ∧
  Forall (λ c, ∃ s, c.1 = CallRemoveTrack s) cs ∧
  (∀ ex', r = Some ex' →
     ex' = list_to_set (omap bound_ID snapshot) ∪ ex ∧
     cs = remove_calls tracks snapshot ∧
     GetSenders pc' = detach_all (filter (stale tracks) snapshot) (GetSenders pc)).
Proof.
  revert ex pc fs r pc' fs' cs.
  induction snapshot as [|sender rest IH]; intros ex pc fs r pc' fs' cs; simpl.
  - intros [= <- <- <- <-]. split; [apply same_peer_refl|]. split; [done|]. split; [constructor|].
    intros ex' [= <-]. split; [set_solver|]. done.
  - unfold remove_calls. rewrite filter_cons.
    destruct (sender_Track sender) as [t|] eqn:Et.
    + destruct (tracks !! local_ID t) as [t'|] eqn:Elook.
      * intros Hrun. apply IH in Hrun as (Hsame & Hld & Hcalls & Hok).
        split; [done|]. split; [done|]. split; [done|].
        intros ex' ->. destruct (Hok _ eq_refl) as (-> & -> & ->).
        rewrite decide_False; last first.
        { intros (t0 & Ht0 & Hn). rewrite Et in Ht0. simplify_eq. }
        split; [|done]. unfold bound_ID at 2. rewrite Et. simpl. set_solver.
      * intros Hrun. apply eng_bind_run in Hrun as [[-> Hrun]|(a & pc1 & fs1 & cs1 & cs2 & Hrun & Hrest & ->)].
        -- apply engine_call_run in Hrun as [(_ & -> & ->)|(? & _)]; [|done].
           split; [apply same_peer_refl|]. split; [done|].
           split; [repeat constructor; eauto|]. done.
        -- apply engine_call_run in Hrun as [(? & _)|(_ & -> & ->)]; [done|]. simpl in Hrest.
           apply IH in Hrest as (Hsame & Hld & Hcalls & Hok).
           split; [eapply same_peer_trans; [|exact Hsame]; by repeat split|].
           split; [by rewrite Hld|].
           split; [constructor; [simpl; eauto|done]|].
           intros ex' ->. destruct (Hok _ eq_refl) as (-> & -> & ->).
           rewrite decide_True; last by (exists t).
           split; [|done]. unfold bound_ID at 2. rewrite Et. simpl. set_solver.
    + intros Hrun. apply IH in Hrun as (Hsame & Hld & Hcalls & Hok).
      split; [done|]. split; [done|]. split; [done|].
      intros ex' ->. destruct (Hok _ eq_refl) as (-> & -> & ->).
      rewrite decide_False; last first.
      { intros (t0 & Ht0 & Hn). rewrite Et in Ht0. discriminate. }
      split; [|done]. unfold bound_ID at 2. rewrite Et. done.
Qed.


Lemma detach_middle s pre l : s ∉ pre → detach s (pre ++ s :: l) = pre ++ l.
Proof.
  induction pre as [|x pre IH]; simpl; intros Hn.
  - by rewrite decide_True.
  - rewrite decide_False by set_solver. f_equal. apply IH. set_solver.
Qed.

Lemma detach_all_stale tracks pre l :
  Forall (λ s, ¬ stale tracks s) pre →
  detach_all (filter (stale tracks) l) (pre ++ l) = pre ++ filter (λ s, ¬ stale tracks s) l.
Proof.
  revert pre. induction l as [|x l IH]; intros pre Hpre.
  - done.
  - rewrite !filter_cons. destruct (decide (stale tracks x)) as [Hx|Hx].
    + rewrite decide_False by tauto. unfold detach_all. simpl.
      rewrite detach_middle; [by apply IH|].
      intros Hin. rewrite Forall_forall in Hpre. by apply (Hpre x).
    + rewrite decide_True by done.
      rewrite (cons_middle x pre l), app_assoc.
      rewrite IH; [by rewrite <- app_assoc|].
      apply Forall_app. split; [done|]. by constructor.
Qed.

Lemma receivers_loop_ids rs ex :
  receivers_loop rs ex = list_to_set (omap received_ID rs) ∪ ex.
Proof.
  revert ex. induction rs as [|r rs IH]; intros ex; simpl.
  - set_solver.
  - destruct r as [[t|]]; simpl; rewrite IH; set_solver.
Qed.

Lemma tracks_loop_run entries ex pc fs r pc' fs' cs :
  tracks_loop entries ex pc fs = (r, pc', fs', cs) →
  same_peer pc pc' ∧ LocalDescription pc' = LocalDescription pc ∧
  Forall (λ c, ∃ kt, kt ∈ entries ∧ (kt.1 ∉ ex) ∧ c.1 = CallAddTrack kt.2) cs ∧
  (r = Some () →
     cs = add_calls ex entries ∧
     sender_Track <$> GetSenders pc' =
       (sender_Track <$> GetSenders pc) ++ ((λ kt, Some kt.2) <$> missing ex entries)).
Proof.
  revert pc fs r pc' fs' cs.
  induction entries as [|[trackID t] rest IH]; intros pc fs r pc' fs' cs; simpl.
  - intros [= <- <- <- <-]. split; [apply same_peer_refl|]. split; [done|]. split; [constructor|].
    intros _. split; [done|]. by rewrite app_nil_r.
  - unfold add_calls, missing. rewrite filter_cons. simpl.
    destruct (decide (trackID ∈ ex)) as [Hin|Hin].
    + intros Hrun. apply IH in Hrun as (Hsame & Hld & Hcalls & Hok).
      split; [done|]. split; [done|].
      split; [eapply Forall_impl; [exact Hcalls|]; intros c (kt & ? & ? & ?); exists kt; set_solver|].
      rewrite decide_False by tauto. done.
    + rewrite decide_True by done.
      intros Hrun. apply eng_bind_run in Hrun as [[-> Hrun]|(a & pc1 & fs1 & cs1 & cs2 & Hrun & Hrest & ->)].
      * apply engine_call_run in Hrun as [(_ & -> & ->)|(? & _)]; [|done].
        split; [apply same_peer_refl|]. split; [done|].
        split; [|done]. repeat constructor. exists (trackID, t). set_solver.
      * apply engine_call_run in Hrun as [(? & _)|(_ & -> & ->)]; [done|]. simpl in Hrest.
        apply IH in Hrest as (Hsame & Hld & Hcalls & Hok).
        split; [eapply same_peer_trans; [|exact Hsame]; by repeat split|].
        split; [by rewrite Hld|].
        split.
        { constructor; [exists (trackID, t); set_solver|].
          eapply Forall_impl; [exact Hcalls|]. intros c (kt & ? & ? & ?); exists kt; set_solver. }
        intros Hr. destruct (Hok Hr) as [-> ->]. split; [done|].
        simpl. rewrite fmap_app. simpl. by rewrite <- app_assoc.
Qed.

Lemma synced_accounted_for pc pc1 :
  same_peer pc pc1 →
  receivers_loop (GetReceivers pc1) (list_to_set (omap bound_ID (GetSenders pc)) ∪ ∅)
  = accounted_for pc.
Proof.
  intros (_ & Hr & _). rewrite receivers_loop_ids, Hr.
  unfold accounted_for, sender_ids, receiver_ids. set_solver.
Qed.

(** A session that is processed without error. *)
Lemma syncSession_ok tracks pc fs pc' fs' cs :
  syncSession tracks pc fs = (Some (), pc', fs', cs) →
  ∃ adjusted offer,
    cs = remove_calls tracks (GetSenders pc)
           ++ add_calls (accounted_for pc) (map_range tracks)
           ++ offer_calls offer ∧
    offer = {| sd_Type := SDPTypeOffer; sd_SDP := offer_sdp adjusted |} ∧
    pc' = set_LocalDescription offer adjusted ∧
    same_peer pc adjusted ∧
    sender_Track <$> GetSenders adjusted =
      (sender_Track <$> filter (λ s, ¬ stale tracks s) (GetSenders pc))
        ++ ((λ kt, Some kt.2) <$> missing (accounted_for pc) (map_range tracks)).
Proof.
  unfold syncSession. intros Hrun.
  apply eng_bind_run in Hrun as [[? _]|(pc0 & pa & fa & ca & ca' & Hget & Hrun & ->)]; [done|].
  injection Hget as <- <- <- <-.
  apply eng_bind_run in Hrun as [[? _]|(ex & p1 & f1 & c1 & c1' & Hsend & Hrun & ->)]; [done|].
  apply senders_loop_run in Hsend as (Hsame1 & Hld1 & _ & Hok1).
  destruct (Hok1 _ eq_refl) as (-> & -> & Hss1).
  apply eng_bind_run in Hrun as [[? _]|(pb & pb' & fb & cb & cb' & Hget & Hrun & ->)]; [done|].
  injection Hget as <- <- <- <-.
  apply eng_bind_run in Hrun as [[? _]|([] & p2 & f2 & c2 & c2' & Htracks & Hrun & ->)]; [done|].
  apply tracks_loop_run in Htracks as (Hsame2 & Hld2 & _ & Hok2).
  rewrite (synced_accounted_for pc p1 Hsame1) in Hok2.
  destruct (Hok2 eq_refl) as (-> & Hss2).
  apply eng_bind_run in Hrun as [[? _]|(offer & p3 & f3 & c3 & c3' & Hoffer & Hrun & ->)]; [done|].
  apply engine_call_run in Hoffer as [(? & _)|(Hoffer & -> & ->)]; [done|].
  simpl in Hoffer. injection Hoffer as ->. simpl in Hrun.
  apply eng_bind_run in Hrun as [[? _]|([] & p4 & f4 & c4 & c4' & Hset & Hrun & ->)]; [done|].
  apply engine_call_run in Hset as [(? & _)|(_ & -> & ->)]; [done|]. simpl in Hrun.
  apply eng_bind_run in Hrun as [[? _]|(text & p5 & f5 & c5 & c5' & Hm & Hrun & ->)]; [done|].
  apply engine_call_run in Hm as [(? & _)|(Htext & -> & ->)]; [done|].
  simpl in Htext. injection Htext as ->. simpl in Hrun.
  apply engine_call_run in Hrun as [(? & _)|(_ & -> & ->)]; [done|]. simpl.
  exists p2. eexists. split; [reflexivity|].
  split; [done|]. split; [done|].
  split; [by eapply same_peer_trans|].
  rewrite Hss2, Hss1. f_equal. f_equal.
  apply (detach_all_stale tracks [] (GetSenders pc)). constructor.
Qed.

(** Whatever the outcome, tracks are only added from registry entries that are
    not accounted for, and the offer is only written when nothing failed. *)
Lemma syncSession_calls tracks pc fs r pc' fs' cs :
  syncSession tracks pc fs = (r, pc', fs', cs) →
  (∀ t ok, (CallAddTrack t, ok) ∈ cs →
     ∃ k, tracks !! k = Some t ∧ k ∉ accounted_for pc) ∧
  (∀ m, (CallWriteJSON m, true) ∈ cs → r = Some ()).
Proof.
  unfold syncSession. intros Hrun.
  apply eng_bind_run in Hrun as [[? Hget]|(pc0 & pa & fa & ca & ca' & Hget & Hrun & ->)]; [done|].
  injection Hget as <- <- <- <-. rewrite app_nil_l.
  apply eng_bind_run in Hrun as [[-> Hsend]|(ex & p1 & f1 & c1 & c1' & Hsend & Hrun & ->)].
  { apply senders_loop_run in Hsend as (_ & _ & Hcalls & _). rewrite Forall_forall in Hcalls.
    split; [intros t ok Hin|intros m Hin]; apply Hcalls in Hin as (s & Hs); done. }
  apply senders_loop_run in Hsend as (Hsame1 & _ & Hcalls1 & Hok1).
  destruct (Hok1 _ eq_refl) as (-> & _ & _). rewrite Forall_forall in Hcalls1.
  apply eng_bind_run in Hrun as [[? Hget]|(pb & pb' & fb & cb & cb' & Hget & Hrun & ->)]; [done|].
  injection Hget as <- <- <- <-. rewrite app_nil_l.
  rewrite (synced_accounted_for pc p1 Hsame1) in Hrun.
  assert (Hadds : ∀ cs2 : list (Call * bool),
    Forall (λ c, ∃ kt, kt ∈ map_range tracks ∧ (kt.1 ∉ accounted_for pc) ∧ c.1 = CallAddTrack kt.2) cs2 →
    ∀ t ok, (CallAddTrack t, ok) ∈ cs2 → ∃ k, tracks !! k = Some t ∧ k ∉ accounted_for pc).
  { intros cs0 Hall t ok Hin. rewrite Forall_forall in Hall.
    apply Hall in Hin as ([k t'] & Hkt & Hk & Heq). simpl in *. injection Heq as ->.
    exists k. split; [|done].
    apply elem_of_map_to_list. by rewrite <- (map_range_perm tracks). }
  assert (Htail : ∀ c2 c5 : list (Call * bool),
    Forall (λ c, ∃ kt, kt ∈ map_range tracks ∧ (kt.1 ∉ accounted_for pc) ∧ c.1 = CallAddTrack kt.2) c2 →
    (∀ t ok, (CallAddTrack t, ok) ∉ c5) →
    ((∀ m, (CallWriteJSON m, true) ∈ c5 → r = Some ())) →
    (∀ t ok, (CallAddTrack t, ok) ∈ c1 ++ c2 ++ c5 →
       ∃ k, tracks !! k = Some t ∧ k ∉ accounted_for pc) ∧
    (∀ m, (CallWriteJSON m, true) ∈ c1 ++ c2 ++ c5 → r = Some ())).
  { intros c2 c5 Hcalls Hno Hw. pose proof (Hadds _ Hcalls) as Hadd.
    rewrite Forall_forall in Hcalls. split.
    - intros t ok Hin. rewrite !elem_of_app in Hin. destruct Hin as [Hin|[Hin|Hin]].
      + apply Hcalls1 in Hin as (? & ?); done.
      + by eapply Hadd.
      + by apply Hno in Hin.
    - intros m Hin. rewrite !elem_of_app in Hin. destruct Hin as [Hin|[Hin|Hin]].
      + apply Hcalls1 in Hin as (? & ?); done.
      + apply Hcalls in Hin as (? & _ & _ & ?); done.
      + by eapply Hw. }
  apply eng_bind_run in Hrun as [[-> Htracks]|([] & p2 & f2 & c2 & c2' & Htracks & Hrun & ->)].
  { apply tracks_loop_run in Htracks as (_ & _ & Hcalls & _).
    rewrite <- (app_nil_r cb'). apply Htail; [done|intros; set_solver|intros; set_solver]. }
  apply tracks_loop_run in Htracks as (_ & _ & Hcalls & _).
  apply eng_bind_run in Hrun as [[-> Hoffer]|(offer & p3 & f3 & c3 & c3' & Hoffer & Hrun & ->)].
  { apply engine_call_run in Hoffer as [(_ & _ & ->)|(? & _)]; [|done].
    apply Htail; [done|intros; set_solver|intros; set_solver]. }
  apply engine_call_run in Hoffer as [(? & _)|(_ & _ & ->)]; [done|].
  apply eng_bind_run in Hrun as [[-> Hset]|([] & p4 & f4 & c4 & c4' & Hset & Hrun & ->)].
  { apply engine_call_run in Hset as [(_ & _ & ->)|(? & _)]; [|done].
    apply Htail; [done|intros; set_solver|intros; set_solver]. }
  apply engine_call_run in Hset as [(? & _)|(_ & _ & ->)]; [done|].
  apply eng_bind_run in Hrun as [[-> Hm]|(text & p5 & f5 & c5 & c5' & Hm & Hrun & ->)].
  { apply engine_call_run in Hm as [(_ & _ & ->)|(? & _)]; [|done].
    apply Htail; [done|intros; set_solver|intros; set_solver]. }
  apply engine_call_run in Hm as [(? & _)|(_ & _ & ->)]; [done|].
  apply engine_call_run in Hrun as [(-> & _ & ->)|(-> & _ & ->)].
  - apply Htail; [done|intros; set_solver|intros; set_solver].
  - apply Htail; [done|intros; set_solver|intros; set_solver].
Qed.


(** ** The events of a pass, session by session *)

Lemma session_calls_app j evs1 evs2 :
  session_calls j (evs1 ++ evs2) = session_calls j evs1 ++ session_calls j evs2.
Proof. unfold session_calls. apply omap_app. Qed.

Lemma session_calls_tag j cs : session_calls j (tag j cs) = cs.
Proof.
  induction cs as [|[c ok] cs IH]; [done|].
  unfold session_calls, tag in *. simpl. rewrite decide_True by done. simpl. by f_equal.
Qed.

Lemma session_calls_tag_ne i j cs : i ≠ j → session_calls j (tag i cs) = [].
Proof.
  intros Hne. induction cs as [|[c ok] cs IH]; [done|].
  unfold session_calls, tag in *. simpl. by rewrite decide_False.
Qed.

Lemma elem_of_session_calls j c ok evs :
  (c, ok) ∈ session_calls j evs ↔ EngineCall j c ok ∈ evs.
Proof.
  unfold session_calls. rewrite list_elem_of_omap. split.
  - intros (e & He & Hm). destruct e as [i c' ok'| |]; try done.
    destruct (decide (i = j)) as [->|]; [|done]. by injection Hm as -> ->.
  - intros Hin. exists (EngineCall j c ok). split; [done|]. by rewrite decide_True.
Qed.

Lemma completed_calls j evs :
  completed j evs ↔ ∃ m, (CallWriteJSON m, true) ∈ session_calls j evs.
Proof. unfold completed. by setoid_rewrite elem_of_session_calls. Qed.

Lemma attemptSync_from_pass n i w r w' evs :
  attemptSync_from n i w = (r, w', evs) →
  length (peerConnections w) ≤ n + i →
  pass i w r w' evs.
Proof.
  revert i w r w' evs. induction n as [|n IH]; intros i w r w' evs; simpl.
  - intros [= <- <- <-] Hlen. by apply pass_done.
  - destruct (peerConnections w !! i) as [s|] eqn:Hs.
    + destruct (decide (ConnectionState (peerConnection s) = PeerConnectionStateClosed)) as [Hc|Hc].
      * intros [= <- <- <-] _. rewrite <- delete_take_drop. by eapply pass_closed.
      * destruct (syncSession _ _ _) as [[[rr pc'] fs'] cs] eqn:Hrun.
        destruct rr as [[]|].
        -- destruct (attemptSync_from n (S i) _) as [[r2 w2] evs2] eqn:Hrest.
           intros [= <- <- <-] Hlen.
           eapply pass_next; [done..|]. apply IH; [done|].
           simpl. rewrite length_insert. lia.
        -- intros [= <- <- <-] _. by eapply pass_failed.
    + intros [= <- <- <-] _. apply pass_done. by apply lookup_ge_None.
Qed.

Lemma attemptSync_pass w r w' evs :
  attemptSync w = (r, w', evs) → pass 0 w r w' evs.
Proof. intros Hrun. eapply attemptSync_from_pass; [exact Hrun|lia]. Qed.

Lemma completed_tag_ok tracks pc fs pc' fs' cs i :
  syncSession tracks pc fs = (Some (), pc', fs', cs) → completed i (tag i cs).
Proof.
  intros (adj & offer & -> & _)%syncSession_ok.
  apply completed_calls. rewrite session_calls_tag.
  exists {| Event := "offer"; Data := json_text offer |}.
  rewrite !elem_of_app. right. right. unfold offer_calls. set_solver.
Qed.

Lemma pass_sessions i w r w' evs :
  pass i w r w' evs →
  trackLocals w' = trackLocals w ∧
  (∀ j, j < i → session_calls j evs = [] ∧ peerConnections w' !! j = peerConnections w !! j) ∧
  (∀ j, session_calls j evs = [] ∨
        ∃ s fs rr pc' fs' cs,
          peerConnections w !! j = Some s ∧
          ConnectionState (peerConnection s) ≠ PeerConnectionStateClosed ∧
          syncSession (trackLocals w) (peerConnection s) fs = (rr, pc', fs', cs) ∧
          session_calls j evs = cs ∧
          (rr = Some () → peerConnections w' !! j = Some (set_peerConnection pc' s))) ∧
  (r = false →
     length (peerConnections w') = length (peerConnections w) ∧
     ∀ j, i ≤ j < length (peerConnections w) → completed j evs).
Proof.
  induction 1 as [i w Hlen|i w s Hs Hc|i w s pc' fs' cs Hs Hc Hrun
                 |i w s pc' fs' cs r w2 evs2 Hs Hc Hrun Hrest IH].
  - split; [done|]. split; [done|]. split; [by left|]. intros _. split; [done|]. lia.
  - split; [done|]. split; [|split; [by left|done]].
    intros j Hj. split; [done|]. simpl. by apply list_lookup_delete_lt.
  - split; [done|]. split; [|split; [|done]].
    + intros j Hj. split; [apply session_calls_tag_ne; lia|].
      simpl. apply list_lookup_insert_ne. lia.
    + intros j. destruct (decide (j = i)) as [->|Hne].
      * right. exists s, (faults w), None, pc', fs', cs. rewrite session_calls_tag. done.
      * left. by apply session_calls_tag_ne.
  - destruct IH as (Htracks & Hbefore & Hsess & Hdone). simpl in *.
    split; [done|]. split; [|split].
    + intros j Hj. rewrite session_calls_app.
      destruct (Hbefore j) as [-> ->]; [lia|].
      rewrite session_calls_tag_ne by lia. split; [done|].
      apply list_lookup_insert_ne. lia.
    + intros j. rewrite session_calls_app. destruct (decide (j = i)) as [->|Hne].
      * right. exists s, (faults w), (Some ()), pc', fs', cs.
        destruct (Hbefore i) as [-> ->]; [lia|].
        rewrite session_calls_tag, app_nil_r. repeat split; try done.
        intros _. apply list_lookup_insert_eq. by eapply lookup_lt_Some.
      * rewrite session_calls_tag_ne by done. simpl.
        destruct (Hsess j) as [?|(s' & fs & rr & pc2 & fs2 & cs2 & Hs' & ? & ? & ? & ?)]; [by left|].
        right. exists s', fs, rr, pc2, fs2, cs2.
        rewrite list_lookup_insert_ne in Hs' by done. done.
    + intros ->. destruct (Hdone eq_refl) as [Hlen Hall].
      rewrite length_insert in Hlen, Hall. split; [done|].
      intros j Hj. destruct (decide (j = i)) as [->|Hne].
      * destruct (completed_tag_ok _ _ _ _ _ _ i Hrun) as [m Hm].
        exists m. apply elem_of_app. by left.
      * destruct (Hall j) as [m Hm]; [lia|]. exists m. apply elem_of_app. by right.
Qed.


Lemma elem_of_sender_ids x pc :
  x ∈ sender_ids pc ↔ ∃ s t, s ∈ GetSenders pc ∧ sender_Track s = Some t ∧ local_ID t = x.
Proof.
  unfold sender_ids. rewrite elem_of_list_to_set, list_elem_of_omap. split.
  - intros (s & Hs & Hb). unfold bound_ID in Hb.
    destruct (sender_Track s) as [t|] eqn:Et; [|done]. injection Hb as <-. eauto.
  - intros (s & t & Hs & Ht & <-). exists s. split; [done|]. unfold bound_ID. by rewrite Ht.
Qed.

Lemma elem_of_receiver_ids x pc :
  x ∈ receiver_ids pc ↔ ∃ r t, r ∈ GetReceivers pc ∧ receiver_Track r = Some t ∧ remote_ID t = x.
Proof.
  unfold receiver_ids. rewrite elem_of_list_to_set, list_elem_of_omap. split.
  - intros (r & Hr & Hb). unfold received_ID in Hb.
    destruct (receiver_Track r) as [t|] eqn:Et; [|done]. injection Hb as <-. eauto.
  - intros (r & t & Hr & Ht & <-). exists r. split; [done|]. unfold received_ID. by rewrite Ht.
Qed.

Lemma elem_of_missing ex tracks k t :
  (k, t) ∈ missing ex (map_range tracks) ↔ tracks !! k = Some t ∧ k ∉ ex.
Proof.
  unfold missing. rewrite list_elem_of_filter. simpl.
  rewrite (map_range_perm tracks), elem_of_map_to_list. tauto.
Qed.

(** The senders of a connection after a pass that went through, read off
    the tracks bound to them. *)
Lemma adjusted_senders tracks pc adjusted :
  registry_wf tracks →
  sender_Track <$> GetSenders adjusted =
    (sender_Track <$> filter (λ s, ¬ stale tracks s) (GetSenders pc))
      ++ ((λ kt, Some kt.2) <$> missing (accounted_for pc) (map_range tracks)) →
  (∀ sender t, sender ∈ GetSenders adjusted → sender_Track sender = Some t →
     local_ID t ∈ dom tracks) ∧
  (∀ k t, tracks !! k = Some t → k ∉ accounted_for pc →
     ∃ sender, sender ∈ GetSenders adjusted ∧ sender_Track sender = Some t) ∧
  sender_ids adjusted = (sender_ids pc ∩ dom tracks) ∪ (dom tracks ∖ accounted_for pc).
Proof.
  intros Hwf Hss.
  assert (Hin : ∀ t, (∃ sender, sender ∈ GetSenders adjusted ∧ sender_Track sender = Some t) ↔
                     (∃ s, s ∈ GetSenders pc ∧ ¬ stale tracks s ∧ sender_Track s = Some t) ∨
                     (∃ k, tracks !! k = Some t ∧ k ∉ accounted_for pc)).
  { intros t. transitivity (Some t ∈ sender_Track <$> GetSenders adjusted).
    { rewrite list_elem_of_fmap. naive_solver. }
    rewrite Hss, elem_of_app, !list_elem_of_fmap.
    assert (Hkept : (∃ y, Some t = sender_Track y ∧
                       y ∈ filter (λ s, ¬ stale tracks s) (GetSenders pc)) ↔
                    (∃ s, s ∈ GetSenders pc ∧ ¬ stale tracks s ∧ sender_Track s = Some t)).
    { setoid_rewrite list_elem_of_filter. naive_solver. }
    assert (Hnew : (∃ y : string * TrackLocalStaticRTP, Some t = Some y.2 ∧
                       y ∈ missing (accounted_for pc) (map_range tracks)) ↔
                   (∃ k, tracks !! k = Some t ∧ k ∉ accounted_for pc)).
    { split.
      - intros ([k t'] & [= <-] & Hm). apply elem_of_missing in Hm. eauto.
      - intros (k & Hk). exists (k, t). split; [done|]. by apply elem_of_missing. }
    tauto. }
  assert (Hfresh : ∀ s t, sender_Track s = Some t → ¬ stale tracks s → local_ID t ∈ dom tracks).
  { intros s t Ht Hns. apply elem_of_dom. destruct (tracks !! local_ID t) eqn:E; [done|].
    exfalso. apply Hns. by exists t. }
  split; [|split].
  - intros sender t Hs Ht.
    destruct (proj1 (Hin t)) as [(s & _ & Hns & Hst)|(k & Hk & _)]; [eauto|by eapply Hfresh|].
    apply elem_of_dom. rewrite (Hwf _ _ Hk). by rewrite Hk.
  - intros k t Hk Hn. apply Hin. right. eauto.
  - apply set_eq. intros x. rewrite elem_of_union, elem_of_intersection, elem_of_difference.
    rewrite !elem_of_sender_ids. split.
    + intros (sender & t & Hs & Ht & <-).
      destruct (proj1 (Hin t)) as [(s & Hs' & Hns & Hst)|(k & Hk & Hn)]; [eauto| |].
      * left. split; [eauto|by eapply Hfresh].
      * right. rewrite (Hwf _ _ Hk). split; [|done]. apply elem_of_dom. by rewrite Hk.
    + intros [[(s & t & Hs & Ht & <-) Hd]|[Hd Hn]].
      * destruct (proj2 (Hin t)) as (sender & ? & ?); [|eauto].
        left. exists s. split; [done|]. split; [|done].
        intros (t' & Ht' & Hnone). rewrite Ht in Ht'. injection Ht' as <-.
        apply elem_of_dom in Hd as [? Hd]. congruence.
      * apply elem_of_dom in Hd as [t Hk].
        destruct (proj2 (Hin t)) as (sender & ? & ?); [eauto|].
        exists sender, t. repeat split; try done. by apply Hwf.
Qed.

Lemma elem_of_remove_calls tracks ss sender :
  sender ∈ ss → stale tracks sender → (CallRemoveTrack sender, true) ∈ remove_calls tracks ss.
Proof.
  intros Hin Hst. unfold remove_calls. apply list_elem_of_fmap.
  exists sender. split; [done|]. by apply list_elem_of_filter.
Qed.

Lemma elem_of_add_calls ex tracks k t :
  tracks !! k = Some t → k ∉ ex → (CallAddTrack t, true) ∈ add_calls ex (map_range tracks).
Proof.
  intros Hk Hn. unfold add_calls. apply list_elem_of_fmap.
  exists (k, t). split; [done|]. by apply elem_of_missing.
Qed.

(** A session that completed in a pass went through [syncSession] without a
    failure, from its state at the start of the pass. *)
Lemma completed_session w tryAgain w' evs i :
  attemptSync w = (tryAgain, w', evs) →
  completed i evs →
  ∃ s adjusted offer,
    peerConnections w !! i = Some s ∧
    ConnectionState (peerConnection s) ≠ PeerConnectionStateClosed ∧
    offer = {| sd_Type := SDPTypeOffer; sd_SDP := offer_sdp adjusted |} ∧
    peerConnections w' !! i = Some (set_peerConnection (set_LocalDescription offer adjusted) s) ∧
    session_calls i evs =
      remove_calls (trackLocals w) (GetSenders (peerConnection s))
        ++ add_calls (accounted_for (peerConnection s)) (map_range (trackLocals w))
        ++ offer_calls offer ∧
    same_peer (peerConnection s) adjusted ∧
    sender_Track <$> GetSenders adjusted =
      (sender_Track <$> filter (λ x, ¬ stale (trackLocals w) x) (GetSenders (peerConnection s)))
        ++ ((λ kt, Some kt.2) <$>
              missing (accounted_for (peerConnection s)) (map_range (trackLocals w))).
Proof.
  intros Hrun%attemptSync_pass [m Hm]%completed_calls.
  apply pass_sessions in Hrun as (_ & _ & Hsess & _).
  destruct (Hsess i) as [Hnil|(s & fs & rr & pc' & fs' & cs & Hs & Hc & Hsync & Hcalls & Hafter)].
  { rewrite Hnil in Hm. by apply elem_of_nil in Hm. }
  rewrite Hcalls in Hm.
  destruct (syncSession_calls _ _ _ _ _ _ _ Hsync) as [_ Hw].
  rewrite (Hw _ Hm) in Hsync, Hafter.
  apply syncSession_ok in Hsync as (adjusted & offer & Hcs & Hoffer & Hpc & Hsame & Hss).
  exists s, adjusted, offer. rewrite Hcalls, <- Hpc. repeat split; try done.
  - by apply Hafter.
  - apply Hsame.
  - apply Hsame.
  - apply Hsame.
  - apply Hsame.
Qed.

(** C1 (amended).  For a session that a pass processed without error: every
    sender whose track had left the registry was removed by a successful
    RemoveTrack call and no sender bound to an unpublished track is left;
    for every registry entry that was not accounted for a successful AddTrack
    call was made and a sender is bound to it; and the identifiers bound to
    the session's senders after the pass are those it already sent that are
    still published, together with the registry's tracks that were not
    accounted for. *)
Theorem attemptSync_reconciles_senders w tryAgain w' evs i :
  registry_wf (trackLocals w) →
  attemptSync w = (tryAgain, w', evs) →
  completed i evs →
  ∃ s s',
    peerConnections w !! i = Some s ∧
    peerConnections w' !! i = Some s' ∧
    (∀ sender, sender ∈ GetSenders (peerConnection s) → stale (trackLocals w) sender →
       EngineCall i (CallRemoveTrack sender) true ∈ evs) ∧
    (∀ sender t, sender ∈ GetSenders (peerConnection s') → sender_Track sender = Some t →
       local_ID t ∈ dom (trackLocals w)) ∧
    (∀ k t, trackLocals w !! k = Some t → k ∉ accounted_for (peerConnection s) →
       EngineCall i (CallAddTrack t) true ∈ evs ∧
       ∃ sender, sender ∈ GetSenders (peerConnection s') ∧ sender_Track sender = Some t) ∧
    sender_ids (peerConnection s') =
      (sender_ids (peerConnection s) ∩ dom (trackLocals w))
        ∪ (dom (trackLocals w) ∖ accounted_for (peerConnection s)).
Proof.
  intros Hwf Hrun Hdone.
  destruct (completed_session _ _ _ _ _ Hrun Hdone)
    as (s & adjusted & offer & Hs & _ & _ & Hs' & Hcalls & _ & Hss).
  destruct (adjusted_senders _ _ _ Hwf Hss) as (Hbound & Hadded & Hids).
  exists s, (set_peerConnection (set_LocalDescription offer adjusted) s).
  split; [done|]. split; [done|]. simpl. split; [|split; [done|split; [|done]]].
  - intros sender Hin Hst. apply elem_of_session_calls. rewrite Hcalls.
    apply elem_of_app. left. by apply elem_of_remove_calls.
  - intros k t Hk Hn. split; [|by eapply Hadded].
    apply elem_of_session_calls. rewrite Hcalls.
    apply elem_of_app. right. apply elem_of_app. left. by eapply elem_of_add_calls.
Qed.


(** C2.  A track that a session publishes is bound to one of its receivers;
    a pass makes no AddTrack call for that session with a track of that
    identifier, whether the pass goes through or not. *)
Theorem attemptSync_no_self_subscription w tryAgain w' evs i s receiver published :
  registry_wf (trackLocals w) →
  attemptSync w = (tryAgain, w', evs) →
  peerConnections w !! i = Some s →
  receiver ∈ GetReceivers (peerConnection s) →
  receiver_Track receiver = Some published →
  ∀ t ok, EngineCall i (CallAddTrack t) ok ∈ evs → local_ID t ≠ remote_ID published.
Proof.
  intros Hwf Hrun%attemptSync_pass Hs Hrecv Hpub t ok Hin%elem_of_session_calls.
  apply pass_sessions in Hrun as (_ & _ & Hsess & _).
  destruct (Hsess i) as [Hnil|(s0 & fs & rr & pc' & fs' & cs & Hs0 & _ & Hsync & Hcalls & _)].
  { rewrite Hnil in Hin. by apply elem_of_nil in Hin. }
  rewrite Hs in Hs0. injection Hs0 as <-. rewrite Hcalls in Hin.
  destruct (syncSession_calls _ _ _ _ _ _ _ Hsync) as [Hadd _].
  destruct (Hadd _ _ Hin) as (k & Hk & Hn).
  rewrite (Hwf _ _ Hk). intros ->. apply Hn.
  unfold accounted_for. apply elem_of_union. right.
  apply elem_of_receiver_ids. eauto.
Qed.

Lemma remove_calls_nil tracks ss :
  (∀ sender, sender ∈ ss → ¬ stale tracks sender) → remove_calls tracks ss = [].
Proof.
  intros Hno. unfold remove_calls.
  destruct (filter (stale tracks) ss) as [|x rest] eqn:E; [done|].
  assert (Hin : x ∈ filter (stale tracks) ss) by (rewrite E; left).
  apply list_elem_of_filter in Hin as [Hst Hin]. by apply Hno in Hin.
Qed.

Lemma add_calls_nil ex tracks :
  dom tracks ⊆ ex → add_calls ex (map_range tracks) = [].
Proof.
  intros Hsub. unfold add_calls.
  destruct (missing ex (map_range tracks)) as [|[k t] rest] eqn:E; [done|].
  assert (Hin : (k, t) ∈ missing ex (map_range tracks)) by (rewrite E; left).
  apply elem_of_missing in Hin as [Hk Hn]. exfalso. apply Hn, Hsub, elem_of_dom. by rewrite Hk.
Qed.

Lemma senders_loop_exact tracks snapshot ex pc fs ex' pc' fs' cs :
  senders_loop tracks snapshot ex pc fs = (Some ex', pc', fs', cs) →
  pc' = foldl (λ acc sender, engine_RemoveTrack sender acc) pc (filter (stale tracks) snapshot).
Proof.
  revert ex pc fs cs. induction snapshot as [|sender rest IH]; intros ex pc fs cs; simpl.
  - by intros [= _ <- _ _].
  - rewrite filter_cons. destruct (sender_Track sender) as [t|] eqn:Et.
    + destruct (tracks !! local_ID t) as [t'|] eqn:Elook.
      * rewrite decide_False; [apply IH|].
        intros (t0 & Ht0 & Hn). rewrite Et in Ht0. simplify_eq.
      * rewrite decide_True by (by exists t). intros Hrun.
        apply eng_bind_run in Hrun as [[? _]|(a & pc1 & fs1 & cs1 & cs2 & Hcall & Hrest & _)];
          [done|].
        apply engine_call_run in Hcall as [(? & _)|(_ & -> & _)]; [done|].
        simpl. by apply IH in Hrest.
    + rewrite decide_False; [apply IH|].
      intros (t0 & Ht0 & _). rewrite Et in Ht0. discriminate.
Qed.

Lemma tracks_loop_exact entries ex pc fs pc' fs' cs :
  tracks_loop entries ex pc fs = (Some (), pc', fs', cs) →
  pc' = foldl (λ acc kt, engine_AddTrack kt.2 acc) pc (missing ex entries).
Proof.
  revert pc fs cs. induction entries as [|[trackID t] rest IH]; intros pc fs cs; simpl.
  - by intros [= <- _ _].
  - unfold missing. rewrite filter_cons. simpl.
    destruct (decide (trackID ∈ ex)) as [Hin|Hin].
    + rewrite decide_False by tauto. apply IH.
    + rewrite decide_True by done. intros Hrun.
      apply eng_bind_run in Hrun as [[? _]|(a & pc1 & fs1 & cs1 & cs2 & Hcall & Hrest & _)];
        [done|].
      apply engine_call_run in Hcall as [(? & _)|(_ & -> & _)]; [done|].
      simpl. by apply IH in Hrest.
Qed.

(** A session that is processed without error, exactly: the connection it
    leaves and the calls it makes. *)
Lemma syncSession_exact tracks pc fs pc' fs' cs :
  syncSession tracks pc fs = (Some (), pc', fs', cs) →
  pc' = set_LocalDescription (created_offer (adjusted_connection tracks pc))
          (adjusted_connection tracks pc) ∧
  cs = remove_calls tracks (GetSenders pc)
         ++ add_calls (accounted_for pc) (map_range tracks)
         ++ offer_calls (created_offer (adjusted_connection tracks pc)).
Proof.
  unfold syncSession. intros Hrun.
  apply eng_bind_run in Hrun as [[? _]|(pc0 & pa & fa & ca & ca' & Hget & Hrun & ->)]; [done|].
  injection Hget as <- <- <- <-.
  apply eng_bind_run in Hrun as [[? _]|(ex & p1 & f1 & c1 & c1' & Hsend & Hrun & ->)]; [done|].
  pose proof (senders_loop_exact _ _ _ _ _ _ _ _ _ Hsend) as Hp1.
  apply senders_loop_run in Hsend as (Hsame1 & _ & _ & Hok1).
  destruct (Hok1 _ eq_refl) as (-> & -> & _).
  apply eng_bind_run in Hrun as [[? _]|(pb & pb' & fb & cb & cb' & Hget & Hrun & ->)]; [done|].
  injection Hget as <- <- <- <-.
  rewrite (synced_accounted_for pc p1 Hsame1) in Hrun.
  apply eng_bind_run in Hrun as [[? _]|([] & p2 & f2 & c2 & c2' & Htracks & Hrun & ->)]; [done|].
  pose proof (tracks_loop_exact _ _ _ _ _ _ _ Htracks) as Hp2.
  apply tracks_loop_run in Htracks as (_ & _ & _ & Hok2).
  destruct (Hok2 eq_refl) as (-> & _).
  assert (Hadj : p2 = adjusted_connection tracks pc).
  { unfold adjusted_connection. by rewrite Hp2, Hp1. }
  apply eng_bind_run in Hrun as [[? _]|(offer & p3 & f3 & c3 & c3' & Hoffer & Hrun & ->)]; [done|].
  apply engine_call_run in Hoffer as [(? & _)|(Hoffer & -> & ->)]; [done|].
  simpl in Hoffer. injection Hoffer as ->. simpl in Hrun.
  apply eng_bind_run in Hrun as [[? _]|([] & p4 & f4 & c4 & c4' & Hset & Hrun & ->)]; [done|].
  apply engine_call_run in Hset as [(? & _)|(_ & -> & ->)]; [done|]. simpl in Hrun.
  apply eng_bind_run in Hrun as [[? _]|(text & p5 & f5 & c5 & c5' & Hm & Hrun & ->)]; [done|].
  apply engine_call_run in Hm as [(? & _)|(Htext & -> & ->)]; [done|].
  simpl in Htext. injection Htext as ->. simpl in Hrun.
  apply engine_call_run in Hrun as [(? & _)|(_ & -> & ->)]; [done|]. simpl.
  rewrite <- Hadj. done.
Qed.



End SessionLemmas.

Section PassLemmas.
Context `{Environment}.

(** ** Passes cut in two *)

Lemma processed_app evs1 evs2 : processed (evs1 ++ evs2) = processed evs1 ++ processed evs2.
Proof. unfold processed. apply omap_app. Qed.

Lemma tag_app i cs1 cs2 : tag i (cs1 ++ cs2) = tag i cs1 ++ tag i cs2.
Proof. unfold tag. apply fmap_app. Qed.

Lemma processed_adjustments i cs : Forall is_adjustment cs → processed (tag i cs) = [].
Proof.
  induction 1 as [|[c ok] cs Hc _ IH]; [done|].
  unfold is_adjustment in Hc. simpl in Hc.
  destruct c; try done; (transitivity (processed (tag i cs)); [reflexivity|exact IH]).
Qed.

Lemma processed_session tracks pc fs pc' fs' cs i :
  syncSession tracks pc fs = (Some (), pc', fs', cs) → processed (tag i cs) = [i].
Proof.
  intros (adj & offer & -> & _)%syncSession_ok.
  rewrite !tag_app, !processed_app.
  rewrite (processed_adjustments i (remove_calls _ _)), (processed_adjustments i (add_calls _ _));
    [done|..]; apply Forall_fmap, Forall_forall; by intros ? _.
Qed.

Lemma attemptSync_from_split n m i w :
  i + n ≤ length (peerConnections w) →
  attemptSync_from (n + m) i w =
    let '(tryAgain, w1, evs1) := attemptSync_from n i w in
    if tryAgain then (true, w1, evs1)
    else let '(tryAgain2, w2, evs2) := attemptSync_from m (i + n) w1 in
         (tryAgain2, w2, evs1 ++ evs2).
Proof.
  revert i w. induction n as [|n IH]; intros i w Hlen.
  - simpl. rewrite Nat.add_0_r. by destruct (attemptSync_from m i w) as [[r w2] evs2].
  - simpl. destruct (peerConnections w !! i) as [s|] eqn:Hs.
    + destruct (decide (ConnectionState (peerConnection s) = PeerConnectionStateClosed)); [done|].
      destruct (syncSession _ _ _) as [[[rr pc'] fs'] cs].
      destruct rr as [[]|]; [|done].
      rewrite IH by (simpl; rewrite length_insert; lia).
      destruct (attemptSync_from n (S i) _) as [[r1 w1] evs1].
      destruct r1; [done|].
      replace (S i + n) with (i + S n) by lia.
      destruct (attemptSync_from m (i + S n) w1) as [[r2 w2] evs2].
      by rewrite app_assoc.
    + apply lookup_ge_None in Hs. lia.
Qed.

(** The first [n] iterations from index [i], when none of them returns. *)
Lemma attemptSync_from_through n i w w1 evs1 :
  attemptSync_from n i w = (false, w1, evs1) →
  i + n ≤ length (peerConnections w) →
  processed evs1 = seq i n ∧
  websocket <$> peerConnections w1 = websocket <$> peerConnections w ∧
  trackLocals w1 = trackLocals w ∧
  (∀ j, i + n ≤ j → peerConnections w1 !! j = peerConnections w !! j).
Proof.
  revert i w w1 evs1. induction n as [|n IH]; intros i w w1 evs1; simpl.
  - intros [= <- <-] _. done.
  - destruct (peerConnections w !! i) as [s|] eqn:Hs.
    + destruct (decide (ConnectionState (peerConnection s) = PeerConnectionStateClosed)); [done|].
      destruct (syncSession _ _ _) as [[[rr pc'] fs'] cs] eqn:Hsync.
      destruct rr as [[]|]; [|done].
      destruct (attemptSync_from n (S i) _) as [[r2 w2] evs2] eqn:Hrest.
      intros [= -> <- <-] Hlen.
      apply IH in Hrest as (Hproc & Hws & Htracks & Hafter); [|simpl; rewrite length_insert; lia].
      simpl in *. split; [|split; [|split]].
      * rewrite processed_app, Hproc. by erewrite processed_session.
      * rewrite Hws, list_fmap_insert. simpl. apply list_insert_id.
        by rewrite list_lookup_fmap, Hs.
      * done.
      * intros j Hj. rewrite Hafter by lia. apply list_lookup_insert_ne. lia.
    + intros _ Hlen. apply lookup_ge_None in Hs. lia.
Qed.

Lemma processed_failed tracks pc fs pc' fs' cs i :
  syncSession tracks pc fs = (None, pc', fs', cs) → processed (tag i cs) = [].
Proof.
  intros Hsync. destruct (syncSession_calls _ _ _ _ _ _ _ Hsync) as [_ Hw].
  assert (Hno : ∀ m, (CallWriteJSON m, true) ∉ cs) by (intros m Hin; by apply Hw in Hin).
  clear Hsync Hw. induction cs as [|[c ok] cs IH]; [done|].
  assert (Hrest : processed (tag i cs) = []).
  { apply IH. intros m Hin. apply (Hno m). by right. }
  destruct c as [| | | | |m]; try exact Hrest.
  destruct ok; [|exact Hrest]. exfalso. apply (Hno m). left.
Qed.

(** Whatever its outcome, a pass processes the entries in order from where it
    starts, each once, and all of them when it goes through. *)
Lemma pass_processed i w r w' evs :
  pass i w r w' evs →
  i ≤ length (peerConnections w) →
  ∃ k, processed evs = seq i k ∧
       i + k ≤ length (peerConnections w) ∧
       (r = false → i + k = length (peerConnections w)).
Proof.
  induction 1 as [i w Hlen|i w s Hs Hc|i w s pc' fs' cs Hs Hc Hrun
                 |i w s pc' fs' cs r w2 evs2 Hs Hc Hrun Hrest IH]; intros Hi.
  - exists 0. split; [done|]. lia.
  - exists 0. split; [done|]. split; [lia|done].
  - exists 0. split; [by eapply processed_failed|]. split; [lia|done].
  - apply lookup_lt_Some in Hs. simpl in IH. rewrite length_insert in IH.
    destruct IH as (k & Hk & Hle & Hall); [lia|].
    exists (S k). rewrite processed_app, Hk. erewrite processed_session by done.
    split; [done|]. split; [lia|]. intros Hr. specialize (Hall Hr). lia.
Qed.

(** C4 (amended).  When the iteration reaches, at index [i], a session whose
    connection is closed (the iterations before it did not return), the pass
    removes exactly that session from the registry and asks for a retry; the
    retry loop then starts a whole new pass, from index 0, over the pruned
    registry.  The pass that is cut short processed each entry before [i]
    once and no other, and the next pass, whatever its outcome, processes the
    entries of the pruned registry in order from the first, each once, and
    all of them when it goes through. *)
Theorem attemptSync_restarts_after_closed w i w1 evs1 s :
  attemptSync_from i 0 w = (false, w1, evs1) →
  peerConnections w !! i = Some s →
  ConnectionState (peerConnection s) = PeerConnectionStateClosed →
  let pruned := {| peerConnections := delete i (peerConnections w1);
                   trackLocals := trackLocals w1;
                   faults := faults w1 |} in
  attemptSync w = (true, pruned, evs1) ∧
  websocket <$> peerConnections pruned = delete i (websocket <$> peerConnections w) ∧
  processed evs1 = seq 0 i ∧
  (∀ attemptsLeft,
     sync_loop (S attemptsLeft) w =
       (let '(w2, evs2) := sync_loop attemptsLeft pruned in (w2, evs1 ++ evs2))) ∧
  (∀ tryAgain2 w2 evs2, attemptSync pruned = (tryAgain2, w2, evs2) →
     ∃ k, processed evs2 = seq 0 k ∧
          k ≤ length (peerConnections pruned) ∧
          (tryAgain2 = false → k = length (peerConnections pruned))).
Proof.
  intros Hpre Hs Hc pruned.
  assert (Hi : i < length (peerConnections w)) by by eapply lookup_lt_Some.
  destruct (attemptSync_from_through _ _ _ _ _ Hpre) as (Hproc & Hws & Htracks & Hafter); [lia|].
  assert (Hsync : attemptSync w = (true, pruned, evs1)).
  { unfold attemptSync.
    replace (length (peerConnections w)) with (i + S (length (peerConnections w) - S i)) by lia.
    rewrite attemptSync_from_split by lia. rewrite Hpre. simpl.
    rewrite Hafter, Hs by lia. rewrite decide_True by done.
    rewrite <- delete_take_drop, app_nil_r. done. }
  split; [done|]. split; [|split; [done|split]].
  - simpl. rewrite !delete_take_drop, fmap_app, fmap_take, fmap_drop. by rewrite Hws.
  - intros k. simpl. by rewrite Hsync.
  - intros tryAgain2 w2 evs2 Hnext%attemptSync_pass.
    destruct (pass_processed _ _ _ _ _ Hnext) as (k & Hk & Hle & Hall); [lia|].
    exists k. split; [exact Hk|]. split; [exact Hle|]. intros Hr. by apply Hall.
Qed.

(** ** The retry loop *)

(** The counting loop returns, and returns what [sync_loop] computes. *)
Lemma sync_loop_counting_left fuel syncAttempt attemptsLeft w :
  syncAttempt + attemptsLeft = 25 →
  attemptsLeft < fuel →
  sync_loop_counting fuel syncAttempt w = Some (sync_loop attemptsLeft w).
Proof.
  revert syncAttempt attemptsLeft w.
  induction fuel as [|fuel IH]; intros syncAttempt attemptsLeft w Hsum Hfuel; [lia|].
  simpl. destruct attemptsLeft as [|k].
  - rewrite decide_True by lia. done.
  - rewrite decide_False by lia. simpl.
    destruct (attemptSync w) as [[tryAgain w'] evs]. destruct tryAgain; [|done].
    rewrite (IH (S syncAttempt) k) by lia. by destruct (sync_loop k w').
Qed.

Lemma sync_loop_counting_total w :
  sync_loop_counting 26 0 w = Some (sync_loop 25 w).
Proof. apply sync_loop_counting_left; lia. Qed.

Lemma deferred_app evs1 evs2 : deferred (evs1 ++ evs2) = deferred evs1 ++ deferred evs2.
Proof. unfold deferred. apply omap_app. Qed.

Lemma deferred_tag i cs : deferred (tag i cs) = [].
Proof. induction cs as [|c cs IH]; [done|]. unfold deferred, tag in *. simpl. exact IH. Qed.

Lemma pass_deferred i w r w' evs : pass i w r w' evs → deferred evs = [].
Proof.
  induction 1; try done.
  - apply deferred_tag.
  - by rewrite deferred_app, deferred_tag, IHpass.
Qed.

Lemma attemptSync_deferred w r w' evs : attemptSync w = (r, w', evs) → deferred evs = [].
Proof. intros Hrun%attemptSync_pass. by eapply pass_deferred. Qed.

Lemma attemptSync_trackLocals w r w' evs :
  attemptSync w = (r, w', evs) → trackLocals w' = trackLocals w.
Proof. intros Hrun%attemptSync_pass. by apply pass_sessions in Hrun as (? & _). Qed.

Lemma retries_deferred n w w' evs :
  retries n w = Some (w', evs) → deferred evs = [] ∧ trackLocals w' = trackLocals w.
Proof.
  revert w w' evs. induction n as [|n IH]; intros w w' evs; simpl.
  - by intros [= <- <-].
  - destruct (attemptSync w) as [[r w1] evs1] eqn:Hrun. destruct r; [|done].
    destruct (retries n w1) as [[w2 evs2]|] eqn:Hrest; [|done].
    intros [= <- <-]. apply IH in Hrest as [Hd Ht].
    rewrite deferred_app, Hd, (attemptSync_deferred _ _ _ _ Hrun), Ht.
    split; [done|]. by eapply attemptSync_trackLocals.
Qed.

Lemma keyframes_deferred i sessions : deferred (keyframes_from i sessions) = [].
Proof.
  revert i. induction sessions as [|s rest IH]; intros i; [done|]. simpl.
  rewrite deferred_app, IH, app_nil_r.
  induction (GetReceivers (peerConnection s)) as [|[[t|]] rs IHr]; done.
Qed.

Lemma sync_loop_course attemptsLeft w w' evs :
  sync_loop attemptsLeft w = (w', evs) →
  (∃ n w1 evs1 evs2,
      n < attemptsLeft ∧ retries n w = Some (w1, evs1) ∧
      attemptSync w1 = (false, w', evs2) ∧ evs = evs1 ++ evs2) ∨
  (∃ evs1, retries attemptsLeft w = Some (w', evs1) ∧
           evs = evs1 ++ [GoSleepSignal (time_Second * 3)]).
Proof.
  revert w w' evs. induction attemptsLeft as [|k IH]; intros w w' evs; simpl.
  - intros [= <- <-]. right. by exists [].
  - destruct (attemptSync w) as [[r w1] evs1] eqn:Hrun. destruct r.
    + destruct (sync_loop k w1) as [w2 evs2] eqn:Hloop. intros [= <- <-].
      apply IH in Hloop as [(n & w3 & evs3 & evs4 & Hn & Hret & Hlast & ->)|(evs3 & Hret & ->)].
      * left. exists (S n), w3, (evs1 ++ evs3), evs4.
        split; [lia|]. simpl. rewrite Hrun, Hret. by rewrite app_assoc.
      * right. exists (evs1 ++ evs3). rewrite Hret. by rewrite app_assoc.
    + intros [= <- <-]. left. exists 0, w, [], evs1. split; [lia|]. done.
Qed.

(** C3.  One call of signalPeerConnections runs the pass again while it
    reports "retry": either fewer than 25 passes report retry and the next
    one goes through, and then no deferred retry is started; or 25 passes in
    a row report retry, and then no further pass is run and exactly one
    deferred retry is started, after a sleep of 3 seconds.  In both cases the
    call returns, with the keyframe dispatch as its last effect. *)
Theorem signalPeerConnections_bounded_retries w :
  ∃ w' evs,
    signalPeerConnections w = (w', evs ++ dispatchKeyFrame w') ∧
    ((∃ n w1 evs1 evs2,
         n < 25 ∧ retries n w = Some (w1, evs1) ∧ attemptSync w1 = (false, w', evs2) ∧
         evs = evs1 ++ evs2 ∧
         deferred (evs ++ dispatchKeyFrame w') = []) ∨
     (∃ evs1,
         retries 25 w = Some (w', evs1) ∧
         evs = evs1 ++ [GoSleepSignal 3000000000] ∧
         deferred (evs ++ dispatchKeyFrame w') = [3000000000%Z])).
Proof.
  unfold signalPeerConnections. destruct (sync_loop 25 w) as [w' evs] eqn:Hloop.
  exists w', evs. split; [done|].
  apply sync_loop_course in Hloop as [(n & w1 & evs1 & evs2 & Hn & Hret & Hlast & ->)|(evs1 & Hret & ->)].
  - left. exists n, w1, evs1, evs2. repeat split; try done.
    rewrite !deferred_app. unfold dispatchKeyFrame. rewrite keyframes_deferred.
    destruct (retries_deferred _ _ _ _ Hret) as [-> _].
    by rewrite (attemptSync_deferred _ _ _ _ Hlast).
  - right. exists evs1. repeat split; try done.
    rewrite !deferred_app. unfold dispatchKeyFrame. rewrite keyframes_deferred.
    by destruct (retries_deferred _ _ _ _ Hret) as [-> _].
Qed.

(** ** The registry under reconciliation *)

Lemma sync_loop_trackLocals attemptsLeft w :
  trackLocals (sync_loop attemptsLeft w).1 = trackLocals w.
Proof.
  destruct (sync_loop attemptsLeft w) as [w' evs] eqn:Hloop.
  apply sync_loop_course in Hloop as [(n & w1 & evs1 & evs2 & _ & Hret & Hlast & _)|(evs1 & Hret & _)].
  - simpl. rewrite (attemptSync_trackLocals _ _ _ _ Hlast).
    by destruct (retries_deferred _ _ _ _ Hret).
  - by destruct (retries_deferred _ _ _ _ Hret).
Qed.

Lemma signalPeerConnections_trackLocals w :
  trackLocals (signalPeerConnections w).1 = trackLocals w.
Proof.
  unfold signalPeerConnections. pose proof (sync_loop_trackLocals 25 w) as Hl.
  by destruct (sync_loop 25 w).
Qed.

Lemma addTrack_trackLocals t w :
  trackLocals (addTrack t w).1.2 =
    <[remote_ID t := NewTrackLocalStaticRTP (remote_Codec t) (remote_ID t) (remote_StreamID t)]>
      (trackLocals w).
Proof.
  unfold addTrack.
  pose proof (signalPeerConnections_trackLocals
    (set_trackLocals (<[remote_ID t := NewTrackLocalStaticRTP (remote_Codec t) (remote_ID t)
                                         (remote_StreamID t)]> (trackLocals w)) w)) as Hs.
  by destruct (signalPeerConnections _).
Qed.

Lemma removeTrack_trackLocals t w :
  trackLocals (removeTrack t w).1 = delete (local_ID t) (trackLocals w).
Proof. unfold removeTrack. by rewrite signalPeerConnections_trackLocals. Qed.

(** The registry stays well-formed: [addTrack] stores the new track under its
    own identifier, and nothing else writes to the registry. *)
Lemma addTrack_registry_wf t w :
  registry_wf (trackLocals w) → registry_wf (trackLocals (addTrack t w).1.2).
Proof.
  intros Hwf k trackLocal. rewrite addTrack_trackLocals.
  intros [[<- <-]|[_ Hk]]%lookup_insert_Some; [done|]. by apply Hwf.
Qed.

Lemma removeTrack_registry_wf t w :
  registry_wf (trackLocals w) → registry_wf (trackLocals (removeTrack t w).1).
Proof.
  intros Hwf k trackLocal. rewrite removeTrack_trackLocals.
  intros [_ Hk]%lookup_delete_Some. by apply Hwf.
Qed.

Lemma signalPeerConnections_registry_wf w :
  registry_wf (trackLocals w) → registry_wf (trackLocals (signalPeerConnections w).1).
Proof. by rewrite signalPeerConnections_trackLocals. Qed.

(** C9.  Unpublishing a track whose identifier is not in the registry leaves
    the registry as it is; the call is a plain reconciliation and has no
    error outcome. *)
Theorem removeTrack_absent t w :
  trackLocals w !! local_ID t = None →
  removeTrack t w = signalPeerConnections w ∧
  trackLocals (removeTrack t w).1 = trackLocals w ∧
  dom (trackLocals (removeTrack t w).1) = dom (trackLocals w).
Proof.
  intros Hnone.
  assert (Hsame : removeTrack t w = signalPeerConnections w).
  { unfold removeTrack, set_trackLocals. rewrite delete_id by done. by destruct w. }
  split; [done|]. rewrite Hsame, signalPeerConnections_trackLocals. done.
Qed.

End PassLemmas.

Section RelayLemmas.
Context `{Environment}.

(** ** The relay loop *)

Lemma relay_loop_returned rtpPkt turns more :
  relay_state (relay_loop rtpPkt turns) = Returned →
  relay_loop rtpPkt (turns ++ more) = relay_loop rtpPkt turns.
Proof.
  revert rtpPkt. induction turns as [|turn rest IH]; intros rtpPkt; simpl; [done|].
  destruct (turn_Read turn) as [data|]; [|done].
  destruct (rtp_Unmarshal rtpPkt data) as [parsed|]; [|done].
  destruct (turn_WriteFails turn); [done|].
  simpl. intros Hret. by rewrite IH.
Qed.

Lemma relay_loop_error rtpPkt before turn :
  turn_Read turn = None ∨ turn_WriteFails turn = true →
  relay_state (relay_loop rtpPkt (before ++ [turn])) = Returned ∧
  relay_reads (relay_loop rtpPkt (before ++ [turn])) ≤ S (length before).
Proof.
  intros Herr. revert rtpPkt. induction before as [|turn0 rest IH]; intros rtpPkt; simpl.
  - destruct (turn_Read turn) as [data|]; [|split; [done|simpl; lia]].
    destruct (rtp_Unmarshal rtpPkt data) as [parsed|]; [|split; [done|simpl; lia]].
    destruct Herr as [?| ->]; [done|]. split; [done|simpl; lia].
  - destruct (turn_Read turn0) as [data|]; [|split; [done|simpl; lia]].
    destruct (rtp_Unmarshal rtpPkt data) as [parsed|]; [|split; [done|simpl; lia]].
    destruct (turn_WriteFails turn0); [split; [done|simpl; lia]|].
    simpl. destruct (IH (clear_extensions parsed)) as [? ?]. split; [done|lia].
Qed.

(** C6.  A turn in which the read or the write fails ends the relay loop:
    the loop has returned, it has read at most up to that turn, and whatever
    the transport offers afterwards is never read.  When the callback returns
    it has unpublished the track: the identifier is not in the registry, and
    the shared state is the one a reconciliation leaves, started on the
    registry without the identifier. *)
Theorem OnTrack_unpublishes_on_error t before turn after others w :
  turn_Read turn = None ∨ turn_WriteFails turn = true →
  let turns := before ++ turn :: after in
  relay_loop empty_Packet turns = relay_loop empty_Packet (before ++ [turn]) ∧
  relay_state (relay_loop empty_Packet turns) = Returned ∧
  relay_reads (relay_loop empty_Packet turns) ≤ S (length before) ∧
  (remote_ID t ∉ dom (trackLocals (OnTrack t turns others w).1.1)) ∧
  ∃ w1 evs1,
    addTrack t w =
      (NewTrackLocalStaticRTP (remote_Codec t) (remote_ID t) (remote_StreamID t), w1, evs1) ∧
    (OnTrack t turns others w).1 =
      (let '(w2, evs2) :=
         signalPeerConnections
           (set_trackLocals (delete (remote_ID t) (trackLocals (others w1))) (others w1)) in
       (w2, evs1 ++ evs2)).
Proof.
  intros Herr turns.
  destruct (relay_loop_error empty_Packet before turn Herr) as [Hret Hreads].
  assert (Hsame : relay_loop empty_Packet turns = relay_loop empty_Packet (before ++ [turn])).
  { unfold turns. rewrite (cons_middle turn before after), app_assoc.
    by apply relay_loop_returned. }
  rewrite Hsame. split; [done|]. split; [done|]. split; [done|].
  unfold OnTrack. fold turns. rewrite Hsame, Hret.
  destruct (addTrack t w) as [[trackLocal w1] evs1] eqn:Hadd.
  assert (HtrackLocal : trackLocal =
            NewTrackLocalStaticRTP (remote_Codec t) (remote_ID t) (remote_StreamID t)).
  { unfold addTrack in Hadd. destruct (signalPeerConnections _). by injection Hadd as <- _ _. }
  subst trackLocal.
  pose proof (removeTrack_trackLocals
    (NewTrackLocalStaticRTP (remote_Codec t) (remote_ID t) (remote_StreamID t)) (others w1)) as Hrem.
  change (removeTrack (NewTrackLocalStaticRTP (remote_Codec t) (remote_ID t) (remote_StreamID t))
            (others w1))
    with (signalPeerConnections
            (set_trackLocals (delete (remote_ID t) (trackLocals (others w1))) (others w1))) in *.
  destruct (signalPeerConnections _) as [w2 evs2] eqn:Hsig. simpl in *. split.
  - rewrite Hrem, dom_delete_L. set_solver.
  - exists w1, evs1. split; [done|]. by rewrite Hsig.
Qed.

(** C8.  Every packet the relay loop hands to the sink has the extension
    flag off and no extensions. *)
Theorem relay_loop_clears_extensions rtpPkt turns :
  Forall (λ p, Extension p = false ∧ Extensions p = [])
    (relay_written (relay_loop rtpPkt turns)).
Proof.
  revert rtpPkt. induction turns as [|turn rest IH]; intros rtpPkt; simpl; [constructor|].
  destruct (turn_Read turn) as [data|]; [|constructor].
  destruct (rtp_Unmarshal rtpPkt data) as [parsed|]; [|constructor].
  destruct (turn_WriteFails turn); simpl.
  - by repeat constructor.
  - constructor; [done|]. apply IH.
Qed.

(** ** The signaling read loop *)



End RelayLemmas.

(** ** Publishing over time *)

Section PublishingLemmas.
Context `{Environment}.

Lemma relays_step_arrives st t :
  trackLocals (shared (relays_step st (TrackArrives t))) =
    <[remote_ID t := NewTrackLocalStaticRTP (remote_Codec t) (remote_ID t) (remote_StreamID t)]>
      (trackLocals (shared st)) ∧
  running (relays_step st (TrackArrives t)) =
    running st ++ [NewTrackLocalStaticRTP (remote_Codec t) (remote_ID t) (remote_StreamID t)].
Proof.
  simpl. pose proof (addTrack_trackLocals t (shared st)) as Hadd.
  unfold addTrack in *. destruct (signalPeerConnections _) as [w' evs]. done.
Qed.

Lemma relays_step_ends st g trackLocal :
  running st !! g = Some trackLocal →
  trackLocals (shared (relays_step st (LoopEnds g))) =
    delete (local_ID trackLocal) (trackLocals (shared st)) ∧
  running (relays_step st (LoopEnds g)) = delete g (running st).
Proof. intros Hg. simpl. rewrite Hg. simpl. by rewrite removeTrack_trackLocals. Qed.

Lemma running_ids_delete st g trackLocal :
  NoDup (local_ID <$> running st) →
  running st !! g = Some trackLocal →
  list_to_set (local_ID <$> delete g (running st)) =@{gset string}
    running_ids st ∖ {[local_ID trackLocal]}.
Proof.
  intros Hnd Hg. unfold running_ids.
  rewrite <- (take_drop_middle _ _ _ Hg) in Hnd |- * at 2.
  rewrite delete_take_drop. rewrite !fmap_app, fmap_cons in *.
  apply NoDup_app in Hnd as (_ & Hdisj & [Hnotin _]%NoDup_cons).
  rewrite !list_to_set_app_L, list_to_set_cons.
  pose proof (Hdisj (local_ID trackLocal)) as Hd.
  assert (local_ID trackLocal ∉ local_ID <$> take g (running st)).
  { intros Hin. apply Hd in Hin. apply Hin. left. }
  set_solver.
Qed.

Lemma relays_step_consistent st e :
  registry_consistent st →
  NoDup (local_ID <$> running st) →
  match e with TrackArrives t => remote_ID t ∉ running_ids st | LoopEnds _ => True end →
  registry_consistent (relays_step st e) ∧ NoDup (local_ID <$> running (relays_step st e)).
Proof.
  unfold registry_consistent. intros Hcons Hnd Hfresh. destruct e as [t|g].
  - destruct (relays_step_arrives st t) as [Hreg Hrun].
    unfold running_ids in *. rewrite Hreg, Hrun, dom_insert_L, Hcons, fmap_app.
    split.
    + rewrite list_to_set_app_L. simpl. set_solver.
    + apply NoDup_app. split; [done|]. split; [|apply NoDup_singleton].
      intros x Hx. simpl. intros ->%list_elem_of_singleton. apply Hfresh.
      by apply elem_of_list_to_set.
  - destruct (running st !! g) as [trackLocal|] eqn:Hg.
    + destruct (relays_step_ends st g trackLocal Hg) as [Hreg Hrun].
      unfold running_ids at 1. rewrite Hreg, Hrun, dom_delete_L, Hcons. split.
      * by rewrite (running_ids_delete st g trackLocal).
      * rewrite list_fmap_delete. eapply sublist_NoDup; [exact Hnd|apply sublist_delete].
    + simpl. rewrite Hg. done.
Qed.

(** C5 (amended).  As long as no track arrives under an identifier that a
    running relay loop already relays, after every publish and every
    unpublish the keys of the registry are the identifiers of the running
    relay loops. *)
Theorem registry_consistent_run events st :
  registry_consistent st →
  NoDup (local_ID <$> running st) →
  distinct_arrivals events st →
  registry_consistent (relays_run events st).
Proof.
  revert st. induction events as [|e rest IH]; intros st Hcons Hnd Hdist; simpl; [done|].
  destruct Hdist as [Hfresh Hrest].
  destruct (relays_step_consistent st e Hcons Hnd Hfresh) as [Hcons' Hnd'].
  by apply IH.
Qed.

(** Without that proviso one half holds: every key of the registry is the
    identifier of a running relay loop. *)
Lemma registry_keys_running events st :
  dom (trackLocals (shared st)) ⊆ running_ids st →
  dom (trackLocals (shared (relays_run events st))) ⊆ running_ids (relays_run events st).
Proof.
  revert st. induction events as [|e rest IH]; intros st Hsub; simpl; [done|].
  apply IH. destruct e as [t|g].
  - destruct (relays_step_arrives st t) as [Hreg Hrun].
    unfold running_ids in *. rewrite Hreg, Hrun, dom_insert_L, fmap_app, list_to_set_app_L.
    simpl. set_solver.
  - destruct (running st !! g) as [trackLocal|] eqn:Hg; [|simpl; by rewrite Hg].
    destruct (relays_step_ends st g trackLocal Hg) as [Hreg Hrun].
    unfold running_ids in *. rewrite Hreg, Hrun, dom_delete_L.
    intros x [Hx Hne]%elem_of_difference. apply Hsub in Hx.
    apply elem_of_list_to_set, list_elem_of_fmap in Hx as (tl & -> & Htl).
    apply elem_of_list_to_set, list_elem_of_fmap. exists tl. split; [done|].
    apply list_elem_of_lookup in Htl as [j Hj].
    destruct (decide (j = g)) as [->|Hjg].
    + rewrite Hg in Hj. injection Hj as ->. set_solver.
    + apply list_elem_of_lookup. destruct (decide (j < g)).
      * exists j. by rewrite list_lookup_delete_lt.
      * exists (j - 1). rewrite list_lookup_delete_ge by lia.
        by replace (S (j - 1)) with j by lia.
Qed.

End PublishingLemmas.

(** * Further properties *)

(** ** Engine computations in general *)

Lemma regular_ret {A} (a : A) : regular (mret a : Eng A).
Proof.
  split.
  - intros pc fs r pc' fs' cs [= <- <- <- <-]. split; [apply same_peer_refl|constructor].
  - intros pc. by exists a, pc, [].
Qed.

Lemma regular_get : regular eng_get.
Proof.
  split.
  - intros pc fs r pc' fs' cs [= <- <- <- <-]. split; [apply same_peer_refl|constructor].
  - intros pc. by exists pc, pc, [].
Qed.

Lemma regular_call {A} c (f : PeerConnection → A * PeerConnection) :
  (∀ pc, same_peer pc (f pc).2) → regular (engine_call c f).
Proof.
  intros Hf. split.
  - intros pc fs r pc' fs' cs Hrun.
    apply engine_call_run in Hrun as [(-> & -> & ->)|(-> & -> & ->)].
    + split; [apply same_peer_refl|]. exists [], c. split; [done|constructor].
    + split; [apply Hf|]. by repeat constructor.
  - intros pc. by exists (f pc).1, (f pc).2, [(c, true)].
Qed.

Lemma regular_bind {A B} (m : Eng A) (k : A → Eng B) :
  regular m → (∀ a, regular (k a)) → regular (m ≫= k).
Proof.
  intros [Hm Hm0] Hk. split.
  - intros pc fs r pc' fs' cs Hrun.
    apply eng_bind_run in Hrun as [[-> Hrun]|(a & pc1 & fs1 & cs1 & cs2 & Hrun & Hrest & ->)].
    + by apply Hm in Hrun.
    + apply Hm in Hrun as [Hsame1 Hok1]. destruct (Hk a) as [Hka _].
      apply Hka in Hrest as [Hsame2 Hok2].
      split; [by eapply same_peer_trans|].
      destruct r as [b|].
      * by apply Forall_app.
      * destruct Hok2 as (cs0 & c & -> & Hok2). exists (cs1 ++ cs0), c.
        split; [by rewrite app_assoc|]. by apply Forall_app.
  - intros pc. destruct (Hm0 pc) as (a & pc1 & cs1 & Hrun).
    destruct (Hk a) as [_ Hk0]. destruct (Hk0 pc1) as (b & pc2 & cs2 & Hrest).
    exists b, pc2, (cs1 ++ cs2).
    change (eng_bind m k pc [] = (Some b, pc2, [], cs1 ++ cs2)).
    unfold eng_bind. by rewrite Hrun, Hrest.
Qed.

Section SettlingLemmas.
Context `{Environment}.

Lemma regular_senders_loop tracks snapshot ex : regular (senders_loop tracks snapshot ex).
Proof.
  revert ex. induction snapshot as [|sender rest IH]; intros ex; simpl.
  - apply regular_ret.
  - destruct (sender_Track sender) as [t|]; [|apply IH].
    destruct (tracks !! local_ID t); [apply IH|].
    apply regular_bind; [|intros; apply IH].
    apply regular_call. intros pc. by repeat split.
Qed.

Lemma regular_tracks_loop entries ex : regular (tracks_loop entries ex).
Proof.
  induction entries as [|[trackID t] rest IH]; simpl.
  - apply regular_ret.
  - destruct (decide (trackID ∈ ex)); [apply IH|].
    apply regular_bind; [|intros; apply IH].
    apply regular_call. intros pc. by repeat split.
Qed.

Lemma regular_syncSession tracks : regular (syncSession tracks).
Proof.
  unfold syncSession.
  apply regular_bind; [apply regular_get|intros pc0].
  apply regular_bind; [apply regular_senders_loop|intros ex].
  apply regular_bind; [apply regular_get|intros pc1].
  apply regular_bind; [apply regular_tracks_loop|intros _].
  apply regular_bind; [apply regular_call; intros pc; apply same_peer_refl|intros offer].
  apply regular_bind; [apply regular_call; intros pc; by repeat split|intros _].
  apply regular_bind; [apply regular_call; intros pc; apply same_peer_refl|intros text].
  apply regular_call; intros pc; apply same_peer_refl.
Qed.


(** ** What a pass does to the registry of sessions *)

Lemma footprints_update i s pc' (l : list peerConnectionState) :
  l !! i = Some s → same_peer (peerConnection s) pc' →
  footprint <$> <[i := set_peerConnection pc' s]> l = footprint <$> l.
Proof.
  intros Hs (Hstate & Hrecv & _). rewrite list_fmap_insert. apply list_insert_id.
  rewrite list_lookup_fmap, Hs. unfold footprint. simpl. by rewrite Hstate, Hrecv.
Qed.

Lemma tag_no_failure i cs :
  Forall (λ c : Call * bool, c.2 = true) cs → Forall (λ e, ¬ is_failure e) (tag i cs).
Proof.
  intros Hok. unfold tag. apply Forall_fmap. eapply Forall_impl; [exact Hok|].
  intros [c ok]. simpl. intros ->. tauto.
Qed.

Lemma syncSession_unfailing tracks pc r pc' fs' cs :
  syncSession tracks pc [] = (r, pc', fs', cs) → is_Some r ∧ fs' = [].
Proof.
  destruct (regular_syncSession tracks) as [_ Hok].
  destruct (Hok pc) as (a & pc2 & cs2 & Hrun). rewrite Hrun. intros [= <- <- <- <-]. eauto.
Qed.

(** The outcome of a pass: either it ends on a failed call, which is then its
    last event and leaves every session registered; or no call fails and it
    either prunes one closed session and asks for a retry, or goes through
    over open sessions only. *)
Lemma pass_outcome i w r w' evs :
  pass i w r w' evs →
  (∃ evs0 e, evs = evs0 ++ [e] ∧ is_failure e ∧ Forall (λ e, ¬ is_failure e) evs0 ∧
             r = true ∧ footprints w' = footprints w ∧ faults w ≠ []) ∨
  (Forall (λ e, ¬ is_failure e) evs ∧
   (faults w = [] → faults w' = []) ∧
   if r then
     ∃ j s, i ≤ j ∧ peerConnections w !! j = Some s ∧ ¬ is_open (footprint s) ∧
            footprints w' = delete j (footprints w)
   else
     footprints w' = footprints w ∧
     ∀ j s, i ≤ j → peerConnections w !! j = Some s → is_open (footprint s)).
Proof.
  induction 1 as [i w Hlen|i w s Hs Hc|i w s pc' fs' cs Hs Hc Hrun
                 |i w s pc' fs' cs r w2 evs2 Hs Hc Hrun Hrest IH].
  - right. split; [constructor|]. split; [done|]. split; [done|].
    intros j s Hj Hs. apply lookup_lt_Some in Hs. lia.
  - right. split; [constructor|]. split; [done|].
    exists i, s. split; [lia|]. split; [done|]. split.
    + unfold is_open, footprint. simpl. tauto.
    + unfold footprints. simpl. by rewrite list_fmap_delete.
  - left. destruct (regular_syncSession (trackLocals w)) as [Hreg _].
    destruct (Hreg _ _ _ _ _ _ Hrun) as (Hsame & cs0 & c & -> & Hok).
    exists (tag i cs0), (EngineCall i c false).
    split; [by rewrite tag_app|]. split; [done|]. split; [by apply tag_no_failure|].
    split; [done|]. split.
    + unfold footprints. simpl. by apply footprints_update.
    + intros Hnil. rewrite Hnil in Hrun. by apply syncSession_unfailing in Hrun as [[? ?] _].
  - destruct (regular_syncSession (trackLocals w)) as [Hreg _].
    destruct (Hreg _ _ _ _ _ _ Hrun) as (Hsame & Hok).
    assert (Hfp : footprints {| peerConnections := <[i:=set_peerConnection pc' s]> (peerConnections w);
                                trackLocals := trackLocals w; faults := fs' |} = footprints w).
    { unfold footprints. simpl. by apply footprints_update. }
    assert (Hfs : faults w = [] → fs' = []).
    { intros Hnil. rewrite Hnil in Hrun. by apply syncSession_unfailing in Hrun as [_ ?]. }
    destruct IH as [(evs0 & e & -> & He & Hevs0 & -> & Hfp2 & Hfaults)
                   |(Hevs2 & Hfaults & Hr)]; simpl in *.
    + left. exists (tag i cs ++ evs0), e. split; [by rewrite app_assoc|]. split; [done|].
      split; [apply Forall_app; split; [by apply tag_no_failure|done]|].
      split; [done|]. split; [by rewrite Hfp2|]. intros Hnil. by apply Hfaults, Hfs.
    + right. split; [apply Forall_app; split; [by apply tag_no_failure|done]|].
      split; [intros Hnil; by apply Hfaults, Hfs|].
      destruct r.
      * destruct Hr as (j & s' & Hj & Hs' & Hclosed & Hdel).
        exists j, s'. split; [lia|]. rewrite list_lookup_insert_ne in Hs' by lia.
        split; [done|]. split; [done|]. by rewrite Hdel, Hfp.
      * destruct Hr as [Hsame2 Hopen]. split; [by rewrite Hsame2|].
        intros j s' Hj Hs'. destruct (decide (j = i)) as [->|Hne].
        -- rewrite Hs in Hs'. injection Hs' as <-. exact Hc.
        -- apply (Hopen j); [lia|]. by rewrite list_lookup_insert_ne.
Qed.

Lemma pruned_refl w : pruned w w.
Proof. by split. Qed.

Lemma pruned_trans w1 w2 w3 : pruned w1 w2 → pruned w2 w3 → pruned w1 w3.
Proof. intros [? ?] [? ?]. split; [by etrans|congruence]. Qed.

Lemma filter_delete_closed {A} (P : A → Prop) `{!∀ x, Decision (P x)} (l : list A) j x :
  l !! j = Some x → ¬ P x → filter P (delete j l) = filter P l.
Proof.
  intros Hj Hx. rewrite <- (take_drop_middle _ _ _ Hj) at 2.
  rewrite delete_take_drop, !filter_app, filter_cons. by rewrite decide_False.
Qed.

Lemma filter_delete_count {A} (P : A → Prop) `{!∀ x, Decision (P x)} (l : list A) j x :
  l !! j = Some x → P x → length (filter P l) = S (length (filter P (delete j l))).
Proof.
  intros Hj Hx. rewrite <- (take_drop_middle _ _ _ Hj) at 1.
  rewrite delete_take_drop, !filter_app, filter_cons, decide_True by done.
  rewrite !length_app. simpl. lia.
Qed.

Lemma attemptSync_pruned w r w' evs : attemptSync w = (r, w', evs) → pruned w w'.
Proof.
  intros Hrun%attemptSync_pass%pass_outcome.
  destruct Hrun as [(_ & _ & _ & _ & _ & _ & Hfp & _)|(_ & _ & Hr)].
  - unfold pruned. by rewrite Hfp.
  - destruct r.
    + destruct Hr as (j & s & _ & Hs & Hclosed & Hdel). unfold pruned. rewrite Hdel. split.
      * apply sublist_delete.
      * eapply filter_delete_closed; [|exact Hclosed]. unfold footprints.
        by rewrite list_lookup_fmap, Hs.
    + destruct Hr as [Hfp _]. unfold pruned. by rewrite Hfp.
Qed.

Lemma sync_loop_pruned attemptsLeft w : pruned w (sync_loop attemptsLeft w).1.
Proof.
  revert w. induction attemptsLeft as [|k IH]; intros w; simpl; [apply pruned_refl|].
  destruct (attemptSync w) as [[r w1] evs1] eqn:Hrun. apply attemptSync_pruned in Hrun.
  destruct r; [|done]. specialize (IH w1). destruct (sync_loop k w1) as [w2 evs2].
  by eapply pruned_trans.
Qed.


Lemma signalPeerConnections_pruned w : pruned w (signalPeerConnections w).1.
Proof.
  unfold signalPeerConnections. pose proof (sync_loop_pruned 25 w) as Hp.
  by destruct (sync_loop 25 w).
Qed.

(** X3.  Reconciliation never adds a session and never drops an open one:
    the sessions it leaves are those it found, in order, but for some whose
    connection was closed; channel, connection state and receivers of a
    session are not touched. *)
Theorem signalPeerConnections_only_prunes_closed w :
  footprints (signalPeerConnections w).1 `sublist_of` footprints w ∧
  filter is_open (footprints (signalPeerConnections w).1) = filter is_open (footprints w).
Proof. apply signalPeerConnections_pruned. Qed.

(** X2.  Reconciliation never writes to the track registry, whatever fails
    and however many passes it takes. *)
Theorem signalPeerConnections_keeps_registry w :
  trackLocals (signalPeerConnections w).1 = trackLocals w.
Proof. apply signalPeerConnections_trackLocals. Qed.

(** X15.  A failed call ends the pass at once: it is the last event of the
    pass, the pass asks for a retry, and no session is pruned in it. *)
Theorem attemptSync_failure_aborts w r w' evs evs1 e evs2 :
  attemptSync w = (r, w', evs) →
  evs = evs1 ++ e :: evs2 →
  is_failure e →
  evs2 = [] ∧ r = true ∧ footprints w' = footprints w.
Proof.
  intros Hrun%attemptSync_pass%pass_outcome Hevs He.
  destruct Hrun as [(evs0 & e0 & Heq & _ & Hclean & -> & Hfp & _)|(Hclean & _)].
  - rewrite Heq in Hevs. destruct evs2 as [|x evs2 _] using rev_ind.
    + done.
    + exfalso. rewrite app_comm_cons, app_assoc in Hevs.
      apply app_inj_tail in Hevs as [-> _].
      rewrite Forall_forall in Hclean. apply (Hclean e); [|done].
      apply elem_of_app. right. left.
  - exfalso. rewrite Forall_forall in Hclean. apply (Hclean e); [|done].
    rewrite Hevs. apply elem_of_app. right. left.
Qed.

(** ** Reconciliation when nothing fails *)

Lemma closed_count_open w :
  closed_count w = 0 ↔ ∀ s, s ∈ peerConnections w → is_open (footprint s).
Proof.
  unfold closed_count. rewrite length_zero_iff_nil. split.
  - intros Hnil s Hs. destruct (decide (is_open (footprint s))) as [|Hn]; [done|].
    exfalso. eapply (filter_nil_not_elem_of _ _ (footprint s)); [exact Hnil|exact Hn|].
    apply list_elem_of_fmap. eauto.
  - intros Hall. destruct (filter _ _) as [|fp rest] eqn:E; [done|].
    assert (Hin : fp ∈ filter (λ fp, ¬ is_open fp) (footprint <$> peerConnections w))
      by (rewrite E; left).
    apply list_elem_of_filter in Hin as [Hn (s & -> & Hs)%list_elem_of_fmap].
    by apply Hall in Hs.
Qed.

Lemma attemptSync_unfailing w r w' evs :
  faults w = [] →
  attemptSync w = (r, w', evs) →
  faults w' = [] ∧ Forall (λ e, ¬ is_failure e) evs ∧
  if r then closed_count w = S (closed_count w') else closed_count w = 0.
Proof.
  intros Hnil Hrun%attemptSync_pass%pass_outcome.
  destruct Hrun as [(_ & _ & _ & _ & _ & _ & _ & Hf)|(Hclean & Hfs & Hr)]; [done|].
  split; [by apply Hfs|]. split; [done|]. destruct r.
  - destruct Hr as (j & s & _ & Hs & Hclosed & Hdel). unfold closed_count.
    fold (footprints w) (footprints w'). rewrite Hdel.
    eapply filter_delete_count; [|exact Hclosed]. unfold footprints.
    by rewrite list_lookup_fmap, Hs.
  - destruct Hr as [_ Hopen]. apply closed_count_open. intros s Hs.
    apply list_elem_of_lookup in Hs as [j Hj]. apply (Hopen j s); [lia|done].
Qed.

(** A pass that went through leaves every session subscribed. *)
Lemma attemptSync_subscribed w w' evs :
  registry_wf (trackLocals w) →
  attemptSync w = (false, w', evs) →
  ∀ s', s' ∈ peerConnections w' → subscribed (trackLocals w) (peerConnection s').
Proof.
  intros Hwf Hrun s' Hs'. apply list_elem_of_lookup in Hs' as [i Hi].
  pose proof Hrun as Hpass. apply attemptSync_pass, pass_sessions in Hpass as (_ & _ & _ & Hdone).
  destruct (Hdone eq_refl) as [Hlen Hall].
  assert (Hc : completed i evs).
  { apply Hall. apply lookup_lt_Some in Hi. lia. }
  destruct (completed_session _ _ _ _ _ Hrun Hc)
    as (s & adjusted & offer & Hs & _ & _ & Hafter & _ & Hsame & Hss).
  rewrite Hi in Hafter. injection Hafter as ->.
  destruct (adjusted_senders _ _ _ Hwf Hss) as (Hbound & _ & Hids).
  assert (Hrecv : receiver_ids adjusted = receiver_ids (peerConnection s)).
  { unfold receiver_ids. by destruct Hsame as (_ & -> & _). }
  unfold subscribed. simpl.
  change (sender_ids (set_LocalDescription offer adjusted)) with (sender_ids adjusted).
  change (accounted_for (set_LocalDescription offer adjusted))
    with (sender_ids adjusted ∪ receiver_ids adjusted).
  rewrite Hrecv, Hids. split.
  - intros x [[_ Hx]%elem_of_intersection|[Hx _]%elem_of_difference]%elem_of_union; exact Hx.
  - intros x Hx. destruct (decide (x ∈ accounted_for (peerConnection s))) as [Hacc|Hacc].
    + unfold accounted_for in Hacc. apply elem_of_union in Hacc as [Hsnd|Hrcv].
      * apply elem_of_union. left. apply elem_of_union. left. by apply elem_of_intersection.
      * apply elem_of_union. by right.
    + apply elem_of_union. left. apply elem_of_union. right. by apply elem_of_difference.
Qed.

(** ... and with the offer the engine made for it as its local description. *)
Lemma attemptSync_offered w w' evs :
  attemptSync w = (false, w', evs) →
  ∀ s', s' ∈ peerConnections w' →
        ∃ adjusted, peerConnection s' = set_LocalDescription (created_offer adjusted) adjusted.
Proof.
  intros Hrun s' Hs'. apply list_elem_of_lookup in Hs' as [i Hi].
  pose proof Hrun as Hpass. apply attemptSync_pass, pass_sessions in Hpass as (_ & _ & _ & Hdone).
  destruct (Hdone eq_refl) as [Hlen Hall].
  assert (Hc : completed i evs).
  { apply Hall. apply lookup_lt_Some in Hi. lia. }
  destruct (completed_session _ _ _ _ _ Hrun Hc)
    as (s & adjusted & offer & Hs & _ & -> & Hafter & _).
  rewrite Hi in Hafter. injection Hafter as ->. by exists adjusted.
Qed.

Lemma sync_loop_unfailing attemptsLeft w :
  faults w = [] →
  closed_count w < attemptsLeft →
  ∃ w1 evs1 evs2,
    trackLocals w1 = trackLocals w ∧
    attemptSync w1 = (false, (sync_loop attemptsLeft w).1, evs2) ∧
    (sync_loop attemptsLeft w).2 = evs1 ++ evs2 ∧
    deferred ((sync_loop attemptsLeft w).2) = [] ∧
    Forall (λ e, ¬ is_failure e) (sync_loop attemptsLeft w).2.
Proof.
  revert w. induction attemptsLeft as [|k IH]; intros w Hnil Hlt; [lia|]. simpl.
  destruct (attemptSync w) as [[r w1] evs1] eqn:Hrun.
  destruct (attemptSync_unfailing _ _ _ _ Hnil Hrun) as (Hnil1 & Hclean & Hr).
  destruct r.
  - destruct (IH w1 Hnil1) as (w2 & evs2 & evs3 & Ht & Hlast & Hevs & Hdef & Hclean2); [lia|].
    destruct (sync_loop k w1) as [w3 evs4]. simpl in *.
    exists w2, (evs1 ++ evs2), evs3.
    split; [rewrite Ht; by eapply attemptSync_trackLocals|]. split; [done|].
    split; [by rewrite Hevs, app_assoc|].
    split; [by rewrite deferred_app, (attemptSync_deferred _ _ _ _ Hrun), Hdef|].
    by apply Forall_app.
  - simpl. exists w, [], evs1. split; [done|]. split; [done|]. split; [done|].
    split; [by eapply attemptSync_deferred|done].
Qed.

Lemma keyframes_no_failure i sessions : Forall (λ e, ¬ is_failure e) (keyframes_from i sessions).
Proof.
  revert i. induction sessions as [|s rest IH]; intros i; simpl; [constructor|].
  apply Forall_app. split; [|apply IH]. unfold receiver_keyframes.
  apply Forall_forall. intros e (r & _ & Hr)%list_elem_of_omap.
  destruct (receiver_Track r); [|done]. injection Hr as <-. simpl. tauto.
Qed.

Lemma open_filter_id w :
  (∀ s, s ∈ peerConnections w → is_open (footprint s)) →
  filter is_open (footprints w) = footprints w.
Proof.
  intros Hall. unfold footprints.
  induction (peerConnections w) as [|s l IH]; [done|].
  rewrite fmap_cons, filter_cons, decide_True by (apply Hall; left).
  f_equal. apply IH. intros s' Hs'. apply Hall. by right.
Qed.

(** One call settles the registry when nothing fails and fewer than 25
    sessions are closed. *)
Lemma sync_settles w :
  registry_wf (trackLocals w) →
  faults w = [] →
  closed_count w < 25 →
  deferred (signalPeerConnections w).2 = [] ∧
  Forall (λ e, ¬ is_failure e) (signalPeerConnections w).2 ∧
  footprints (signalPeerConnections w).1 = filter is_open (footprints w) ∧
  ∀ s', s' ∈ peerConnections (signalPeerConnections w).1 →
        subscribed (trackLocals w) (peerConnection s') ∧
        ∃ adjusted, peerConnection s' = set_LocalDescription (created_offer adjusted) adjusted.
Proof.
  intros Hwf Hnil Hlt.
  destruct (sync_loop_unfailing 25 w Hnil Hlt) as (w1 & evs1 & evs2 & Ht & Hlast & _ & Hdef & Hclean).
  pose proof (sync_loop_pruned 25 w) as [_ Hopen].
  unfold signalPeerConnections. destruct (sync_loop 25 w) as [w' evs]. simpl in *.
  assert (Hnil1 : closed_count w' = 0).
  { pose proof Hlast as Hp. apply attemptSync_pass, pass_outcome in Hp.
    destruct Hp as [(_ & _ & _ & _ & _ & [=] & _)|(_ & _ & Hfp & Hall)].
    apply closed_count_open. intros s Hs.
    assert (Hin : footprint s ∈ footprints w') by (apply list_elem_of_fmap; eauto).
    rewrite Hfp in Hin. apply list_elem_of_fmap in Hin as (s1 & -> & Hs1).
    apply list_elem_of_lookup in Hs1 as [j Hj]. apply (Hall j s1); [lia|done]. }
  split; [unfold dispatchKeyFrame; by rewrite deferred_app, Hdef, keyframes_deferred|].
  split; [apply Forall_app; split; [done|apply keyframes_no_failure]|].
  split.
  - rewrite <- Hopen. symmetry. apply open_filter_id. by apply closed_count_open.
  - intros s' Hs'. split.
    + rewrite <- Ht. by eapply attemptSync_subscribed; [rewrite Ht|..].
    + by eapply attemptSync_offered.
Qed.

(** X5.  When no call fails and fewer than 25 registered sessions are closed,
    one call of signalPeerConnections settles the registry: no retry is
    deferred, the sessions left are exactly the open ones, in order, and each
    of them is subscribed: its senders are bound to published tracks only,
    and every published track is bound to one of its senders or receivers;
    its local description is the offer the engine made for it. *)
Theorem signalPeerConnections_settles w :
  registry_wf (trackLocals w) →
  faults w = [] →
  closed_count w < 25 →
  deferred (signalPeerConnections w).2 = [] ∧
  Forall (λ e, ¬ is_failure e) (signalPeerConnections w).2 ∧
  footprints (signalPeerConnections w).1 = filter is_open (footprints w) ∧
  ∀ s', s' ∈ peerConnections (signalPeerConnections w).1 →
        subscribed (trackLocals w) (peerConnection s') ∧
        ∃ adjusted, peerConnection s' = set_LocalDescription (created_offer adjusted) adjusted.
Proof. apply sync_settles. Qed.

End SettlingLemmas.

Section FurtherPassLemmas.
Context `{Environment}.

Lemma attemptSync_closed_count w r w' evs :
  attemptSync w = (r, w', evs) →
  if r then closed_count w ≤ S (closed_count w') else closed_count w = 0.
Proof.
  intros Hrun%attemptSync_pass%pass_outcome.
  destruct Hrun as [(_ & _ & _ & _ & _ & -> & Hfp & _)|(_ & _ & Hr)].
  - unfold closed_count. fold (footprints w) (footprints w'). rewrite Hfp. lia.
  - destruct r.
    + destruct Hr as (j & s & _ & Hs & Hclosed & Hdel). unfold closed_count.
      fold (footprints w) (footprints w'). rewrite Hdel.
      erewrite (filter_delete_count _ (footprints w)); [done| |exact Hclosed].
      unfold footprints. by rewrite list_lookup_fmap, Hs.
    + destruct Hr as [_ Hopen]. apply closed_count_open. intros s Hs.
      apply list_elem_of_lookup in Hs as [j Hj]. apply (Hopen j s); [lia|done].
Qed.

Lemma sync_loop_exhausted attemptsLeft w :
  attemptsLeft ≤ closed_count w →
  deferred (sync_loop attemptsLeft w).2 = [(time_Second * 3)%Z] ∧
  closed_count w ≤ attemptsLeft + closed_count (sync_loop attemptsLeft w).1.
Proof.
  revert w. induction attemptsLeft as [|k IH]; intros w Hle; simpl.
  - split; [done|lia].
  - destruct (attemptSync w) as [[r w1] evs1] eqn:Hrun.
    pose proof (attemptSync_closed_count _ _ _ _ Hrun) as Hcount.
    destruct r; [|lia].
    destruct (IH w1) as [Hdef Hleft]; [lia|].
    destruct (sync_loop k w1) as [w2 evs2]. simpl in *.
    rewrite deferred_app, (attemptSync_deferred _ _ _ _ Hrun), Hdef. split; [done|lia].
Qed.

(** X6.  With 25 or more closed sessions in the registry one call cannot
    settle it, even when no call fails: every pass is used up on pruning, at
    most 25 closed sessions are removed, and the call ends by deferring one
    retry by 3 seconds. *)
Theorem signalPeerConnections_too_many_closed w :
  25 ≤ closed_count w →
  deferred (signalPeerConnections w).2 = [3000000000%Z] ∧
  closed_count w ≤ 25 + closed_count (signalPeerConnections w).1.
Proof.
  intros Hle. destruct (sync_loop_exhausted 25 w Hle) as [Hdef Hleft].
  unfold signalPeerConnections. destruct (sync_loop 25 w) as [w' evs]. simpl in *.
  unfold dispatchKeyFrame. rewrite deferred_app, keyframes_deferred, Hdef. done.
Qed.

(** X4.  Reconciliation reaches a fixed point in one pass: after a pass that
    went through, the next pass makes no RemoveTrack or AddTrack call for a
    session it completes, only the four calls of a new offer. *)
Theorem attemptSync_second_pass_quiet w w' evs tryAgain2 w'' evs2 i :
  registry_wf (trackLocals w) →
  attemptSync w = (false, w', evs) →
  attemptSync w' = (tryAgain2, w'', evs2) →
  completed i evs2 →
  ∃ s', peerConnections w' !! i = Some s' ∧
        session_calls i evs2 = offer_calls (created_offer (peerConnection s')) ∧
        peerConnections w'' !! i =
          Some (set_peerConnection
                  (set_LocalDescription (created_offer (peerConnection s')) (peerConnection s')) s').
Proof.
  intros Hwf Hrun Hrun2 [m Hm]%completed_calls.
  pose proof (attemptSync_trackLocals _ _ _ _ Hrun) as Htracks.
  apply attemptSync_pass, pass_sessions in Hrun2 as (_ & _ & Hsess & _).
  destruct (Hsess i) as [Hnil|(s' & fs & rr & pc' & fs' & cs & Hs' & _ & Hsync & Hcalls & Hafter)].
  { rewrite Hnil in Hm. by apply elem_of_nil in Hm. }
  rewrite Hcalls in Hm.
  destruct (syncSession_calls _ _ _ _ _ _ _ Hsync) as [_ Hw].
  rewrite (Hw _ Hm) in Hsync, Hafter.
  apply syncSession_exact in Hsync as [Hpc Hcs].
  assert (Hsub : subscribed (trackLocals w) (peerConnection s')).
  { eapply attemptSync_subscribed; [done..|]. apply list_elem_of_lookup. eauto. }
  destruct Hsub as [Hsent Hall]. rewrite Htracks in *.
  assert (Hrm : filter (stale (trackLocals w)) (GetSenders (peerConnection s')) = []).
  { destruct (filter _ _) as [|x rest] eqn:E; [done|].
    assert (Hin : x ∈ filter (stale (trackLocals w)) (GetSenders (peerConnection s')))
      by (rewrite E; left).
    apply list_elem_of_filter in Hin as [(t & Ht & Hnone) Hin]. exfalso.
    assert (Hid : local_ID t ∈ dom (trackLocals w)).
    { apply Hsent, elem_of_sender_ids. eauto. }
    apply elem_of_dom in Hid as [? Hid]. congruence. }
  assert (Hadd : missing (accounted_for (peerConnection s')) (map_range (trackLocals w)) = []).
  { destruct (missing _ _) as [|[k t] rest] eqn:E; [done|].
    assert (Hin : (k, t) ∈ missing (accounted_for (peerConnection s'))
                              (map_range (trackLocals w))) by (rewrite E; left).
    apply elem_of_missing in Hin as [Hk Hn]. exfalso.
    apply Hn, Hall, elem_of_dom. by rewrite Hk. }
  assert (Hadj : adjusted_connection (trackLocals w) (peerConnection s') = peerConnection s').
  { unfold adjusted_connection. by rewrite Hrm, Hadd. }
  exists s'. split; [done|]. split.
  - rewrite Hcalls, Hcs, Hadj. unfold remove_calls, add_calls. by rewrite Hrm, Hadd.
  - rewrite (Hafter eq_refl), Hpc, Hadj. done.
Qed.

(** ** The keyframe dispatch *)

Lemma elem_of_keyframes_from i0 sessions e :
  e ∈ keyframes_from i0 sessions ↔
  ∃ j s r t, sessions !! j = Some s ∧ r ∈ GetReceivers (peerConnection s) ∧
             receiver_Track r = Some t ∧ e = WriteRTCP (i0 + j) (remote_SSRC t).
Proof.
  revert i0. induction sessions as [|s rest IH]; intros i0; simpl.
  - split; [by intros ?%elem_of_nil|]. by intros (j & s & r & t & ? & _).
  - rewrite elem_of_app, IH. unfold receiver_keyframes. rewrite list_elem_of_omap. split.
    + intros [(r & Hr & He)|(j & s' & r & t & Hs' & Hr & Ht & ->)].
      * destruct (receiver_Track r) as [t|] eqn:Et; [|done]. injection He as <-.
        exists 0, s, r, t. by rewrite Nat.add_0_r.
      * exists (S j), s', r, t. repeat split; try done. f_equal. lia.
    + intros ([|j] & s' & r & t & Hs' & Hr & Ht & ->).
      * injection Hs' as <-. left. exists r. split; [done|]. rewrite Ht. simpl.
        by rewrite Nat.add_0_r.
      * right. exists j, s', r, t. repeat split; try done. f_equal. lia.
Qed.

Lemma length_keyframes_from i0 sessions :
  length (keyframes_from i0 sessions) =
    sum_list ((λ s, length (omap receiver_Track (GetReceivers (peerConnection s)))) <$> sessions).
Proof.
  revert i0. induction sessions as [|s rest IH]; intros i0; simpl; [done|].
  rewrite length_app, IH. f_equal. unfold receiver_keyframes.
  induction (GetReceivers (peerConnection s)) as [|[[t|]] rs IHr]; simpl; [done|by f_equal|done].
Qed.

(** X1.  The keyframe dispatch asks for a keyframe once for every receiver
    with a bound track and for no other: it writes one picture loss
    indication per such receiver, on the connection of its session and with
    the SSRC of its track; receivers without a track are passed over. *)
Theorem dispatchKeyFrame_requests w :
  (∀ e, e ∈ dispatchKeyFrame w ↔
        ∃ i s r t, peerConnections w !! i = Some s ∧ r ∈ GetReceivers (peerConnection s) ∧
                   receiver_Track r = Some t ∧ e = WriteRTCP i (remote_SSRC t)) ∧
  length (dispatchKeyFrame w) =
    sum_list ((λ s, length (omap receiver_Track (GetReceivers (peerConnection s))))
                <$> peerConnections w).
Proof.
  unfold dispatchKeyFrame. split.
  - intros e. by rewrite elem_of_keyframes_from.
  - apply length_keyframes_from.
Qed.

(** ** Publish and unpublish *)

(** X7.  Publishing stores the new track under the identifier of the inbound
    track and touches no other entry; unpublishing it afterwards leaves the
    registry without that identifier, which is the registry as it was when
    the identifier was new, and loses the earlier entry when another track
    had been published under the same identifier. *)
Theorem addTrack_removeTrack t w :
  let published := (addTrack t w).1.1 in
  let w1 := (addTrack t w).1.2 in
  published = NewTrackLocalStaticRTP (remote_Codec t) (remote_ID t) (remote_StreamID t) ∧
  trackLocals w1 !! remote_ID t = Some published ∧
  (∀ k, k ≠ remote_ID t → trackLocals w1 !! k = trackLocals w !! k) ∧
  trackLocals (removeTrack published w1).1 = delete (remote_ID t) (trackLocals w) ∧
  (trackLocals w !! remote_ID t = None → trackLocals (removeTrack published w1).1 = trackLocals w).
Proof.
  intros published w1.
  assert (Hpub : published =
            NewTrackLocalStaticRTP (remote_Codec t) (remote_ID t) (remote_StreamID t)).
  { unfold published, addTrack. by destruct (signalPeerConnections _). }
  assert (Hreg : trackLocals w1 = <[remote_ID t := published]> (trackLocals w)).
  { rewrite Hpub. apply addTrack_trackLocals. }
  assert (Hrem : trackLocals (removeTrack published w1).1 = delete (remote_ID t) (trackLocals w)).
  { rewrite removeTrack_trackLocals, Hreg, Hpub. simpl. apply delete_insert_eq. }
  split; [done|]. split; [rewrite Hreg; apply lookup_insert_eq|].
  split; [intros k Hk; rewrite Hreg; by apply lookup_insert_ne|].
  split; [done|]. intros Hnone. rewrite Hrem. by apply delete_id.
Qed.

End FurtherPassLemmas.

Section LoopLemmas.
Context `{Environment}.

(** ** The relay loop, packet by packet *)

(** X8.  The relay loop forwards no packet it has not read and holds back at
    most one: the packets handed to the sink are as many as the reads or one
    fewer, and while the loop is running every turn was read and forwarded. *)
Theorem relay_loop_accounting rtpPkt turns :
  let run := relay_loop rtpPkt turns in
  length (relay_written run) ≤ relay_reads run ∧
  relay_reads run ≤ S (length (relay_written run)) ∧
  relay_reads run ≤ length turns ∧
  (relay_state run = Blocked →
     relay_reads run = length turns ∧ length (relay_written run) = length turns ∧
     relay_log run = []) ∧
  (relay_state run = Returned → 1 ≤ relay_reads run).
Proof.
  revert rtpPkt. induction turns as [|turn rest IH]; intros rtpPkt; simpl.
  - repeat split; try done; lia.
  - destruct (turn_Read turn) as [data|]; [|simpl; repeat split; try done; lia].
    destruct (rtp_Unmarshal rtpPkt data) as [parsed|]; [|simpl; repeat split; try done; lia].
    destruct (turn_WriteFails turn); [simpl; repeat split; try done; lia|].
    destruct (IH (clear_extensions parsed)) as (H1 & H2 & H3 & H4 & H5). simpl.
    split; [lia|]. split; [lia|]. split; [lia|]. split.
    + intros Hb. destruct (H4 Hb) as (? & ? & ?). repeat split; try done; lia.
    + intros _. lia.
Qed.

(** X9.  The k-th packet handed to the sink is the k-th packet read: it is
    what the parser made of the k-th read, with the extension flag and list
    cleared and nothing else changed, where the parser worked on the packet
    object as the previous turn left it (the zero packet at first). *)
Theorem relay_loop_forwards_in_order rtpPkt turns k p :
  relay_written (relay_loop rtpPkt turns) !! k = Some p →
  ∃ turn data parsed,
    turns !! k = Some turn ∧ turn_Read turn = Some data ∧
    rtp_Unmarshal
      (match k with
       | 0 => rtpPkt
       | S k' => default rtpPkt (relay_written (relay_loop rtpPkt turns) !! k')
       end) data = Some parsed ∧
    p = clear_extensions parsed.
Proof.
  revert rtpPkt k. induction turns as [|turn rest IH]; intros rtpPkt k; simpl; [by destruct k|].
  destruct (turn_Read turn) as [data|] eqn:Hread; [|by destruct k].
  destruct (rtp_Unmarshal rtpPkt data) as [parsed|] eqn:Hparse; [|by destruct k].
  destruct (turn_WriteFails turn); simpl.
  - destruct k as [|k]; [|done]. intros [= <-]. by exists turn, data, parsed.
  - destruct k as [|k]; simpl.
    + intros [= <-]. by exists turn, data, parsed.
    + intros Hk. destruct (IH _ _ Hk) as (turn' & data' & parsed' & Ht & Hr & Hp & ->).
      exists turn', data', parsed'. repeat split; try done.
      destruct k as [|k]; simpl; [done|].
      destruct (relay_written (relay_loop (clear_extensions parsed) rest) !! k) eqn:E; [done|].
      apply lookup_ge_None in E. apply lookup_lt_Some in Hk. lia.
Qed.

(** ** The signaling read loop, message by message *)

Lemma candidates_of_cons m ms :
  candidates_of (m :: ms) =
    match (if decide (Event m = "candidate") then decode_candidate (Data m) else None) with
    | Some c => c :: candidates_of ms
    | None => candidates_of ms
    end.
Proof. reflexivity. Qed.

Lemma answers_of_cons m ms :
  answers_of (m :: ms) =
    match (if decide (Event m = "answer") then decode_description (Data m) else None) with
    | Some a => a :: answers_of ms
    | None => answers_of ms
    end.
Proof. reflexivity. Qed.

Lemma read_loop_course frames message pc fs log :
  let run := read_loop frames message pc fs log in
  GetSenders (handler_pc run) = GetSenders pc ∧
  GetReceivers (handler_pc run) = GetReceivers pc ∧
  LocalDescription (handler_pc run) = LocalDescription pc ∧
  ConnectionState (handler_pc run) = ConnectionState pc ∧
  handler_websocket_open run = true ∧
  match handler_state run with
  | Blocked =>
    handler_log run = log ∧ handler_panicked run = false ∧
    RemoteCandidates (handler_pc run) =
      RemoteCandidates pc ++ candidates_of (envelopes frames message) ∧
    RemoteDescription (handler_pc run) =
      match last (answers_of (envelopes frames message)) with
      | Some answer => Some answer
      | None => RemoteDescription pc
      end
  | Returned =>
    if handler_panicked run then handler_log run = log ∧ handler_message run = None
    else ∃ line, handler_log run = log ++ [line]
  end.
Proof.
  revert message pc fs log.
  induction frames as [|frame rest IH]; intros message pc fs log; cbn [read_loop envelopes].
  - simpl. repeat split; try done. by rewrite app_nil_r.
  - destruct frame as [| | |event data].
    + simpl. repeat split; eauto.
    + simpl. repeat split; eauto.
    + simpl. repeat split; eauto.
    + remember (decode_into event data message) as m eqn:Hm. clear Hm.
      rewrite candidates_of_cons, answers_of_cons.
      destruct (decide (Event m = "candidate")) as [Hc|Hc].
      * rewrite (decide_False (P := Event m = "answer")) by (rewrite Hc; discriminate).
        destruct (decode_candidate (Data m)) as [candidate|]; [|simpl; repeat split; eauto].
        destruct (next_fault fs) as [fail fs']. destruct fail; [simpl; repeat split; eauto|].
        specialize (IH m (add_RemoteCandidate candidate pc) fs' log). cbv zeta in IH |- *.
        destruct IH as (Hs & Hr & Hl & Hst & Hopen & Hstate).
        split; [exact Hs|]. split; [exact Hr|]. split; [exact Hl|]. split; [exact Hst|].
        split; [exact Hopen|].
        destruct (handler_state _); [|exact Hstate].
        destruct Hstate as (Hlog & Hp & Hcand & Hdesc).
        split; [exact Hlog|]. split; [exact Hp|]. split; [|exact Hdesc].
        rewrite Hcand. simpl. by rewrite <- app_assoc.
      * destruct (decide (Event m = "answer")) as [Ha|Ha]; [|apply IH].
        destruct (decode_description (Data m)) as [answer|]; [|simpl; repeat split; eauto].
        destruct (next_fault fs) as [fail fs']. destruct fail; [simpl; repeat split; eauto|].
        specialize (IH m (set_RemoteDescription answer pc) fs' log). cbv zeta in IH |- *.
        destruct IH as (Hs & Hr & Hl & Hst & Hopen & Hstate).
        split; [exact Hs|]. split; [exact Hr|]. split; [exact Hl|]. split; [exact Hst|].
        split; [exact Hopen|].
        destruct (handler_state _); [|exact Hstate].
        destruct Hstate as (Hlog & Hp & Hcand & Hdesc).
        split; [exact Hlog|]. split; [exact Hp|]. split; [exact Hcand|].
        rewrite Hdesc, last_cons. by destruct (last _).
Qed.

(** X10.  The handler leaves the read loop in one of two ways, with the
    connection and the channel closed in both: by returning, with exactly
    one line logged, or by the panic on a nil message, with none.  While the
    loop is reading nothing is logged and nothing is closed. *)
Theorem websocketHandler_read_exits frames pc fs :
  let run := websocketHandler_read frames pc fs in
  match handler_state run with
  | Blocked =>
    handler_log run = [] ∧ handler_panicked run = false ∧
    handler_websocket_open run = true ∧
    ConnectionState (handler_pc run) = ConnectionState pc
  | Returned =>
    handler_websocket_open run = false ∧
    ConnectionState (handler_pc run) = PeerConnectionStateClosed ∧
    if handler_panicked run then handler_log run = [] else ∃ line, handler_log run = [line]
  end.
Proof.
  unfold websocketHandler_read.
  pose proof (read_loop_course frames {| Event := ""; Data := "" |} pc fs []) as Hcourse.
  simpl in Hcourse. destruct Hcourse as (_ & _ & _ & Hstate & Hopen & Hcase).
  destruct (handler_state _) eqn:E; simpl.
  - rewrite E. by destruct Hcase as (? & ? & _).
  - split; [done|]. split; [done|]. destruct (handler_panicked _); [by destruct Hcase|done].
Qed.

(** X11.  The read loop writes to the remote side of the connection only,
    and in arrival order: while it is reading, the candidates of the
    connection are those it had followed by the candidates of all candidate
    messages so far, its remote description is the answer of the last answer
    message, if any, and senders, receivers and local description are as
    they were.  An object without an event member counts under the event of
    the message before it, since the message object is reused. *)
Theorem read_loop_applies_messages frames message pc fs log :
  handler_state (read_loop frames message pc fs log) = Blocked →
  let pc' := handler_pc (read_loop frames message pc fs log) in
  RemoteCandidates pc' = RemoteCandidates pc ++ candidates_of (envelopes frames message) ∧
  RemoteDescription pc' =
    match last (answers_of (envelopes frames message)) with
    | Some answer => Some answer
    | None => RemoteDescription pc
    end ∧
  GetSenders pc' = GetSenders pc ∧
  GetReceivers pc' = GetReceivers pc ∧
  LocalDescription pc' = LocalDescription pc.
Proof.
  intros Hb. pose proof (read_loop_course frames message pc fs log) as Hcourse.
  simpl in Hcourse. rewrite Hb in Hcourse.
  destruct Hcourse as (? & ? & ? & _ & _ & _ & _ & ? & ?). done.
Qed.

End LoopLemmas.

(** ** Joining *)

Lemma filter_sublist_mono {A} (P : A → Prop) `{!∀ x, Decision (P x)} (l1 l2 : list A) :
  l1 `sublist_of` l2 → filter P l1 `sublist_of` filter P l2.
Proof.
  induction 1 as [|x l1 l2 _ IH|x l1 l2 _ IH]; [done| |].
  - rewrite !filter_cons. destruct (decide (P x)); [by constructor|done].
  - rewrite filter_cons. destruct (decide (P x)); [by constructor|done].
Qed.

Lemma sublist_snoc_last {A} (P : A → Prop) `{!∀ x, Decision (P x)} (l l' : list A) x :
  l' `sublist_of` l ++ [x] →
  filter P l' = filter P l ++ [x] →
  last l' = Some x.
Proof.
  intros (l1 & l2 & -> & H1 & H2)%sublist_app_r Hf.
  apply sublist_cons_r in H2 as [H2|(l3 & -> & H3)].
  - apply sublist_nil_r in H2 as ->. rewrite app_nil_r in Hf.
    apply (filter_sublist_mono P), sublist_length in H1.
    rewrite Hf, length_app in H1. simpl in H1. lia.
  - apply sublist_nil_r in H3 as ->. apply last_snoc.
Qed.

Section JoiningLemmas.
Context `{Environment}.

(** The course of the setup, case by case. *)
Lemma websocketHandler_setup_cases upgrade w :
  let run := websocketHandler_setup upgrade w in
  (join_joined run = false ∧
   peerConnections (join_world run) = peerConnections w ∧
   trackLocals (join_world run) = trackLocals w ∧
   join_events run = [] ∧
   (upgrade = None ∨ (true ∈ take 3 (faults w))) ∧
   ((upgrade = None ∧ join_log run = [LogUpgrade] ∧ join_deferred run = []) ∨
    (∃ c, upgrade = Some c ∧
          ((join_log run = [LogNewPeerConnection] ∧
            join_deferred run = [DeferredCloseWebsocket c]) ∨
           (∃ typ, join_log run = [LogAddTransceiverFromKind typ] ∧
                   join_deferred run = [DeferredClosePeerConnection; DeferredCloseWebsocket c]))))) ∨
  (join_joined run = true ∧ join_log run = [] ∧ join_deferred run = [] ∧
   (true ∉ take 3 (faults w)) ∧
   ∃ c, upgrade = Some c ∧
        let w1 := {| peerConnections :=
                       peerConnections w ++
                       [{| peerConnection :=
                             set_Receivers [unbound_receiver; unbound_receiver] NewPeerConnection;
                           websocket := c |}];
                     trackLocals := trackLocals w;
                     faults := drop 3 (faults w) |} in
        join_world run = (signalPeerConnections w1).1 ∧
        join_events run = (signalPeerConnections w1).2).
Proof.
  destruct upgrade as [c|]; simpl.
  2:{ left. repeat split; eauto. }
  destruct (faults w) as [|[] [|[] [|[] fs]]] eqn:Hf; simpl.
  all: try (left; split; [done|]; split; [done|]; split; [done|]; split; [done|];
            split; [right; by repeat first [left|right]|]; right; exists c; split; [done|];
            first [by left|right; by eexists]).
  all: right; destruct (signalPeerConnections _) as [w2 evs] eqn:Hs; simpl;
    split; [done|]; split; [done|]; split; [done|];
    (split; [intros Hin; repeat (apply elem_of_cons in Hin as [?|Hin]; [done|]);
             by apply elem_of_nil in Hin|]);
    exists c; (split; [done|]);
    split; [exact (f_equal fst (eq_sym Hs))|exact (f_equal snd (eq_sym Hs))].
Qed.

Lemma joined_footprints c w fs :
  footprints {| peerConnections :=
                  peerConnections w ++
                  [{| peerConnection :=
                        set_Receivers [unbound_receiver; unbound_receiver] NewPeerConnection;
                      websocket := c |}];
                trackLocals := trackLocals w;
                faults := fs |} = footprints w ++ [joined_footprint c].
Proof. unfold footprints. simpl. by rewrite fmap_app. Qed.

(** X12.  The setup fails exactly when the upgrade fails or one of its three
    engine calls does (NewPeerConnection and the two AddTransceiverFromKind).
    A failed setup logs one line, leaves both registries as they were and
    starts no reconciliation; what it had opened is closed on the way out,
    the connection before the websocket. *)
Theorem websocketHandler_setup_failure upgrade w :
  let run := websocketHandler_setup upgrade w in
  (join_joined run = false ↔ upgrade = None ∨ (true ∈ take 3 (faults w))) ∧
  (join_joined run = false →
     peerConnections (join_world run) = peerConnections w ∧
     trackLocals (join_world run) = trackLocals w ∧
     join_events run = [] ∧
     match upgrade with
     | None => join_log run = [LogUpgrade] ∧ join_deferred run = []
     | Some c =>
       (join_log run = [LogNewPeerConnection] ∧
        join_deferred run = [DeferredCloseWebsocket c]) ∨
       (∃ typ, join_log run = [LogAddTransceiverFromKind typ] ∧
               join_deferred run = [DeferredClosePeerConnection; DeferredCloseWebsocket c])
     end).
Proof.
  intros run.
  destruct (websocketHandler_setup_cases upgrade w)
    as [(Hj & Hpcs & Htracks & Hevs & Hwhy & Hhow)|(Hj & _ & _ & Hnot & c & -> & _)];
    fold run in Hj |- *.
  - split; [by split|]. intros _. split; [done|]. split; [done|]. split; [done|].
    destruct Hhow as [(-> & Hlog & Hdef)|(c & -> & Hhow)]; done.
  - rewrite Hj. split; [|done]. split; [done|]. by intros [?|?].
Qed.

(** X13.  A session whose setup went through is registered by the time the
    read loop starts, whatever failed in the reconciliation it triggered: it
    is the last entry of the registry, with the channel of the request, a
    new connection and two receivers without a track; the entries before it
    are those that were there, but for closed ones; nothing is logged, no
    deferred call has run and the track registry is as it was. *)
Theorem websocketHandler_setup_registers c w :
  join_joined (websocketHandler_setup (Some c) w) = true →
  let run := websocketHandler_setup (Some c) w in
  last (footprints (join_world run)) = Some (joined_footprint c) ∧
  footprints (join_world run) `sublist_of` footprints w ++ [joined_footprint c] ∧
  filter is_open (footprints (join_world run)) =
    filter is_open (footprints w) ++ [joined_footprint c] ∧
  trackLocals (join_world run) = trackLocals w ∧
  join_log run = [] ∧ join_deferred run = [].
Proof.
  intros Hj run.
  destruct (websocketHandler_setup_cases (Some c) w)
    as [(Hj' & _)|(_ & Hlog & Hdef & _ & c' & [= <-] & Hw & _)]; [congruence|].
  fold run in Hlog, Hdef, Hw. rewrite Hw.
  destruct (signalPeerConnections_pruned
              {| peerConnections :=
                   peerConnections w ++
                   [{| peerConnection :=
                         set_Receivers [unbound_receiver; unbound_receiver] NewPeerConnection;
                       websocket := c |}];
                 trackLocals := trackLocals w;
                 faults := drop 3 (faults w) |}) as [Hsub Hopen].
  rewrite joined_footprints in Hsub, Hopen.
  rewrite filter_app in Hopen.
  change (filter is_open [joined_footprint c]) with [joined_footprint c] in Hopen.
  split; [by eapply sublist_snoc_last|]. split; [done|]. split; [done|].
  split; [by rewrite signalPeerConnections_trackLocals|done].
Qed.

(** X14.  When nothing fails and fewer than 25 registered sessions are
    closed, a joining session leaves the setup subscribed to everything:
    it is the last entry of the registry, behind the open sessions that were
    there, it has one sender for every published track and for nothing else,
    and its local description is the offer the engine made for it. *)
Theorem websocketHandler_setup_subscribes c w :
  registry_wf (trackLocals w) →
  faults w = [] →
  closed_count w < 25 →
  let run := websocketHandler_setup (Some c) w in
  join_joined run = true ∧
  deferred (join_events run) = [] ∧
  footprints (join_world run) = filter is_open (footprints w) ++ [joined_footprint c] ∧
  ∃ s adjusted,
    last (peerConnections (join_world run)) = Some s ∧
    websocket s = c ∧
    sender_ids (peerConnection s) = dom (trackLocals w) ∧
    peerConnection s = set_LocalDescription (created_offer adjusted) adjusted.
Proof.
  intros Hwf Hnil Hlt run.
  destruct (websocketHandler_setup_cases (Some c) w)
    as [(_ & _ & _ & _ & [[=]|Hin] & _)|(Hj & _ & _ & _ & c' & [= <-] & Hw & Hevs)].
  { rewrite Hnil in Hin. by apply elem_of_nil in Hin. }
  fold run in Hj, Hw, Hevs. rewrite Hnil in Hw, Hevs. simpl in Hw, Hevs.
  set (w1 := {| peerConnections :=
                  peerConnections w ++
                  [{| peerConnection :=
                        set_Receivers [unbound_receiver; unbound_receiver] NewPeerConnection;
                      websocket := c |}];
                trackLocals := trackLocals w;
                faults := [] |}) in *.
  assert (Hfp1 : footprints w1 = footprints w ++ [joined_footprint c])
    by apply joined_footprints.
  assert (Hcount : closed_count w1 = closed_count w).
  { unfold closed_count. fold (footprints w1) (footprints w).
    rewrite Hfp1, filter_app, length_app. simpl. lia. }
  destruct (sync_settles w1) as (Hdef & _ & Hfp & Hall); [done|done|lia|].
  rewrite <- Hw in Hfp, Hall. rewrite <- Hevs in Hdef.
  rewrite Hfp1, filter_app in Hfp.
  change (filter is_open [joined_footprint c]) with [joined_footprint c] in Hfp.
  split; [done|]. split; [done|]. split; [done|].
  assert (Hlast : last (footprints (join_world run)) = Some (joined_footprint c))
    by (rewrite Hfp; apply last_snoc).
  unfold footprints in Hlast. rewrite fmap_last in Hlast.
  destruct (last (peerConnections (join_world run))) as [s|] eqn:Hs; [|done].
  injection Hlast as Hc Hstate Hrecv.
  assert (Hin : s ∈ peerConnections (join_world run)).
  { rewrite last_lookup in Hs. by eapply list_elem_of_lookup_2. }
  destruct (Hall s Hin) as [[Hsent Hcover] [adjusted Hadj]].
  exists s, adjusted. split; [done|].
  split; [done|]. split; [|done].
  assert (Hnone : receiver_ids (peerConnection s) = ∅).
  { unfold receiver_ids. by rewrite Hrecv. }
  unfold accounted_for in Hcover. rewrite Hnone in Hcover.
  simpl in Hsent, Hcover. apply set_eq. intros x. split; [apply Hsent|].
  intros Hx. apply Hcover in Hx. by apply elem_of_union in Hx as [?|?%elem_of_empty].
Qed.

End JoiningLemmas.

(** * Examples: the statements at concrete states *)

Lemma video_registry_wf : registry_wf video_registry.
Proof. unfold video_registry. intros k t [<- <-]%lookup_singleton_Some. reflexivity. Qed.

(** C1, as stated, fails: a session that already sends the only published
    track goes through a pass without error and keeps its sender, while the
    registry's tracks minus those accounted for is the empty set. *)
Lemma sender_set_counterexample :
  registry_wf (trackLocals w_resync) ∧
  (attemptSync w_resync).1.1 = false ∧
  completed 0 (attemptSync w_resync).2 ∧
  ∃ s', peerConnections (attemptSync w_resync).1.2 !! 0 = Some s' ∧
        sender_ids (peerConnection s') ≠ dom (trackLocals w_resync) ∖ accounted_for viewer.
Proof.
  split; [apply video_registry_wf|]. split; [reflexivity|]. split.
  - exists {| Event := "offer"; Data := "v=0" |}. vm_compute. repeat constructor.
  - eexists. split; [reflexivity|]. intros Heq.
    assert (Hin : "video" ∈ dom (trackLocals w_resync) ∖ accounted_for viewer).
    { rewrite <- Heq. apply elem_of_sender_ids. exists sender_video, local_video.
      split; [|done]. simpl. left. }
    apply elem_of_difference in Hin as [_ Hn]. apply Hn.
    apply elem_of_union. left. apply elem_of_sender_ids.
    exists sender_video, local_video. split; [left|done].
Qed.

(** C1 at [w_churn]: the session sends a track that was unpublished while
    another one is published. *)
Lemma attemptSync_reconciles_senders_witness :
  let '(tryAgain, w', evs) := attemptSync w_churn in
  registry_wf (trackLocals w_churn) ∧
  completed 0 evs ∧
  ∃ s s',
    peerConnections w_churn !! 0 = Some s ∧
    peerConnections w' !! 0 = Some s' ∧
    (∀ sender, sender ∈ GetSenders (peerConnection s) → stale (trackLocals w_churn) sender →
       EngineCall 0 (CallRemoveTrack sender) true ∈ evs) ∧
    (∀ sender t, sender ∈ GetSenders (peerConnection s') → sender_Track sender = Some t →
       local_ID t ∈ dom (trackLocals w_churn)) ∧
    (∀ k t, trackLocals w_churn !! k = Some t → k ∉ accounted_for (peerConnection s) →
       EngineCall 0 (CallAddTrack t) true ∈ evs ∧
       ∃ sender, sender ∈ GetSenders (peerConnection s') ∧ sender_Track sender = Some t) ∧
    sender_ids (peerConnection s') =
      (sender_ids (peerConnection s) ∩ dom (trackLocals w_churn))
        ∪ (dom (trackLocals w_churn) ∖ accounted_for (peerConnection s)).
Proof.
  destruct (attemptSync w_churn) as [[tryAgain w'] evs] eqn:Hrun.
  assert (Hdone : completed 0 evs).
  { pose proof Hrun as Hval. vm_compute in Hval. injection Hval as _ _ <-.
    exists {| Event := "offer"; Data := "v=0" |}. repeat constructor. }
  split; [apply video_registry_wf|]. split; [exact Hdone|].
  exact (attemptSync_reconciles_senders w_churn tryAgain w' evs 0 video_registry_wf Hrun Hdone).
Defined.

(** C2 at [w_publisher]: the only session publishes the only track. *)
Lemma attemptSync_no_self_subscription_witness :
  let '(tryAgain, w', evs) := attemptSync w_publisher in
  registry_wf (trackLocals w_publisher) ∧
  peerConnections w_publisher !! 0 = Some (session 0 publisher) ∧
  receiver_video ∈ GetReceivers publisher ∧
  receiver_Track receiver_video = Some remote_video ∧
  ∀ t ok, EngineCall 0 (CallAddTrack t) ok ∈ evs → local_ID t ≠ "video".
Proof.
  destruct (attemptSync w_publisher) as [[tryAgain w'] evs] eqn:Hrun.
  assert (Hrecv : receiver_video ∈ GetReceivers publisher) by (simpl; left).
  split; [apply video_registry_wf|]. split; [reflexivity|]. split; [exact Hrecv|].
  split; [reflexivity|].
  exact (attemptSync_no_self_subscription w_publisher tryAgain w' evs 0 (session 0 publisher)
           receiver_video remote_video video_registry_wf Hrun eq_refl Hrecv eq_refl).
Defined.


(** C4, as stated, fails for the other terminal state: a session whose
    connection has failed and is not closed is not removed; the pass goes
    through, adds the published track to it and sends it an offer. *)
Lemma failed_session_counterexample :
  ConnectionState failed_peer = PeerConnectionStateFailed ∧
  (attemptSync w_failed).1.1 = false ∧
  websocket <$> peerConnections (attemptSync w_failed).1.2 = [{| Conn := 0 |}] ∧
  processed (attemptSync w_failed).2 = [0] ∧
  EngineCall 0 (CallAddTrack local_video) true ∈ (attemptSync w_failed).2.
Proof.
  split; [reflexivity|]. split; [reflexivity|]. split; [reflexivity|]. split; [reflexivity|].
  vm_compute. repeat constructor.
Qed.

(** C4 at [w_leaving]: the session in the middle is closed. *)
Lemma attemptSync_restarts_after_closed_witness :
  let '(tryAgain, w1, evs1) := attemptSync_from 1 0 w_leaving in
  tryAgain = false ∧
  peerConnections w_leaving !! 1 = Some (session 1 leaver) ∧
  ConnectionState leaver = PeerConnectionStateClosed ∧
  (attemptSync w_leaving).1.1 = true ∧
  websocket <$> peerConnections (attemptSync w_leaving).1.2 = [{| Conn := 0 |}; {| Conn := 2 |}] ∧
  processed evs1 = [0].
Proof.
  destruct (attemptSync_from 1 0 w_leaving) as [[tryAgain w1] evs1] eqn:Hpre.
  assert (Hfalse : tryAgain = false).
  { pose proof Hpre as Hval. vm_compute in Hval. by injection Hval as <- _ _. }
  subst tryAgain.
  destruct (attemptSync_restarts_after_closed w_leaving 1 w1 evs1 (session 1 leaver)
              Hpre eq_refl eq_refl) as (Hsync & Hws & Hproc & _).
  split; [reflexivity|]. split; [reflexivity|]. split; [reflexivity|].
  rewrite Hsync. split; [reflexivity|]. split; [exact Hws|exact Hproc].
Defined.

(** C9 at [w_resync]: the track "old" is not in the registry. *)
Lemma removeTrack_absent_witness :
  trackLocals w_resync !! local_ID local_old = None ∧
  removeTrack local_old w_resync = signalPeerConnections w_resync ∧
  trackLocals (removeTrack local_old w_resync).1 = trackLocals w_resync ∧
  dom (trackLocals (removeTrack local_old w_resync).1) = dom (trackLocals w_resync).
Proof.
  assert (Hnone : trackLocals w_resync !! local_ID local_old = None) by reflexivity.
  split; [exact Hnone|]. exact (removeTrack_absent local_old w_resync Hnone).
Defined.

(** C6: the second read fails; the third turn is never read. *)
Lemma OnTrack_unpublishes_on_error_witness :
  (turn_Read read_error = None ∨ turn_WriteFails read_error = true) ∧
  relay_state (relay_loop empty_Packet [good_turn; read_error; good_turn]) = Returned ∧
  relay_reads (relay_loop empty_Packet [good_turn; read_error; good_turn]) ≤ 2 ∧
  "video" ∉ dom (trackLocals
                   (OnTrack remote_video [good_turn; read_error; good_turn] id empty_World).1.1).
Proof.
  assert (Herr : turn_Read read_error = None ∨ turn_WriteFails read_error = true)
    by (left; reflexivity).
  destruct (OnTrack_unpublishes_on_error remote_video [good_turn] read_error [good_turn]
              id empty_World Herr) as (_ & Hret & Hreads & Hgone & _).
  split; [exact Herr|]. split; [exact Hret|]. split; [exact Hreads|exact Hgone].
Defined.



(** C5, as stated, fails: two relay loops for tracks with the same
    identifier are running, the first one ends and unpublishes the
    identifier, and the second is still running with no registry entry. *)
Lemma registry_consistent_counterexample :
  let st := relays_run [TrackArrives remote_video; TrackArrives remote_video_again; LoopEnds 0]
              no_relays in
  registry_consistent no_relays ∧
  running st = [NewTrackLocalStaticRTP vp8 "video" "other"] ∧
  trackLocals (shared st) !! "video" = None ∧
  ¬ registry_consistent st.
Proof.
  split; [reflexivity|]. split; [reflexivity|].
  assert (Hnone : trackLocals
            (shared (relays_run [TrackArrives remote_video; TrackArrives remote_video_again;
                                 LoopEnds 0] no_relays)) !! "video" = None).
  { unfold relays_run. cbn [foldl].
    destruct (relays_step_ends
                (relays_step (relays_step no_relays (TrackArrives remote_video))
                   (TrackArrives remote_video_again)) 0 local_video eq_refl) as [-> _].
    apply lookup_delete_eq. }
  split; [exact Hnone|].
  unfold registry_consistent. intros Heq.
  assert (Hin : "video" ∈ dom (trackLocals
            (shared (relays_run [TrackArrives remote_video; TrackArrives remote_video_again;
                                 LoopEnds 0] no_relays)))).
  { rewrite Heq. apply elem_of_list_to_set. left. }
  apply elem_of_dom in Hin as [? Hin]. rewrite Hnone in Hin. discriminate.
Qed.

(** C5 (amended): the same identifier is published again after its first relay
    loop has ended. *)
Lemma registry_consistent_run_witness :
  registry_consistent no_relays ∧
  NoDup (local_ID <$> running no_relays) ∧
  distinct_arrivals [TrackArrives remote_video; LoopEnds 0; TrackArrives remote_video_again]
    no_relays ∧
  registry_consistent
    (relays_run [TrackArrives remote_video; LoopEnds 0; TrackArrives remote_video_again]
       no_relays).
Proof.
  assert (Hcons : registry_consistent no_relays) by reflexivity.
  assert (Hnd : NoDup (local_ID <$> running no_relays)) by constructor.
  assert (Hdist : distinct_arrivals
            [TrackArrives remote_video; LoopEnds 0; TrackArrives remote_video_again] no_relays).
  { repeat split; vm_compute; intros Hin; inversion Hin. }
  split; [exact Hcons|]. split; [exact Hnd|]. split; [exact Hdist|].
  exact (registry_consistent_run _ _ Hcons Hnd Hdist).
Defined.

(** The scenario of the exhausted retries: with 25 injected failures the call
    runs 25 passes, starts one deferred retry after 3 seconds and returns;
    with 24 the 25th pass goes through and nothing is deferred. *)
Example signalPeerConnections_exhausted :
  deferred (signalPeerConnections w_failing).2 = [3000000000%Z] ∧
  faults (signalPeerConnections w_failing).1 = [] ∧
  processed (signalPeerConnections w_failing).2 = [].
Proof. vm_compute. done. Qed.

Example signalPeerConnections_last_attempt :
  let w := {| peerConnections := [session 0 viewer]; trackLocals := video_registry;
              faults := replicate 24 true |} in
  deferred (signalPeerConnections w).2 = [] ∧
  processed (signalPeerConnections w).2 = [0].
Proof. vm_compute. done. Qed.

(** The scenario of the join: the viewer of [w_churn] loses the sender of the
    unpublished track and gains one for the published track, and the
    publisher gains none. *)
Example attemptSync_join :
  let w := {| peerConnections := [session 0 stale_viewer; session 1 publisher];
              trackLocals := video_registry; faults := [] |} in
  (attemptSync w).1.1 = false ∧
  (λ s, sender_Track <$> GetSenders (peerConnection s)) <$> peerConnections (attemptSync w).1.2 =
    [[Some local_video]; []] ∧
  session_calls 0 (attemptSync w).2 =
    [(CallRemoveTrack sender_old, true); (CallAddTrack local_video, true)]
      ++ offer_calls {| sd_Type := SDPTypeOffer; sd_SDP := "v=0" |} ∧
  session_calls 1 (attemptSync w).2 = offer_calls {| sd_Type := SDPTypeOffer; sd_SDP := "v=0" |}.
Proof. vm_compute. done. Qed.

(** ** The further properties at concrete states *)

(** X4 at [w_churn]: the first pass replaces the stale sender, the second
    only makes a new offer. *)
Lemma attemptSync_second_pass_quiet_witness :
  let '(_, w', _) := attemptSync w_churn in
  let '(_, _, evs2) := attemptSync w' in
  registry_wf (trackLocals w_churn) ∧
  (attemptSync w_churn).1.1 = false ∧
  completed 0 evs2 ∧
  session_calls 0 evs2 =
    [(CallCreateOffer, true);
     (CallSetLocalDescription {| sd_Type := SDPTypeOffer; sd_SDP := "v=0" |}, true);
     (CallMarshal {| sd_Type := SDPTypeOffer; sd_SDP := "v=0" |}, true);
     (CallWriteJSON {| Event := "offer"; Data := "v=0" |}, true)].
Proof.
  destruct (attemptSync w_churn) as [[r w'] evs] eqn:Hrun.
  destruct (attemptSync w') as [[r2 w''] evs2] eqn:Hrun2.
  assert (Hr : r = false).
  { pose proof Hrun as Hval. vm_compute in Hval. by injection Hval as <- _ _. }
  subst r.
  assert (Hdone : completed 0 evs2).
  { pose proof Hrun as Hval. vm_compute in Hval. injection Hval as <- _.
    pose proof Hrun2 as Hval2. vm_compute in Hval2. injection Hval2 as _ _ <-.
    eexists. repeat first [left|right]. }
  destruct (attemptSync_second_pass_quiet w_churn w' evs r2 w'' evs2 0
              video_registry_wf Hrun Hrun2 Hdone) as (s' & _ & Hcalls & _).
  split; [exact video_registry_wf|]. split; [reflexivity|]. split; [exact Hdone|].
  rewrite Hcalls. reflexivity.
Defined.

(** X5 at [w_leaving]: the closed session is pruned and the two others are
    left, both subscribed. *)
Lemma signalPeerConnections_settles_witness :
  registry_wf (trackLocals w_leaving) ∧ faults w_leaving = [] ∧ closed_count w_leaving < 25 ∧
  deferred (signalPeerConnections w_leaving).2 = [] ∧
  websocket <$> peerConnections (signalPeerConnections w_leaving).1 =
    [{| Conn := 0 |}; {| Conn := 2 |}] ∧
  ∀ s', s' ∈ peerConnections (signalPeerConnections w_leaving).1 →
        subscribed (trackLocals w_leaving) (peerConnection s').
Proof.
  assert (Hlt : closed_count w_leaving < 25) by (vm_compute; lia).
  destruct (signalPeerConnections_settles w_leaving video_registry_wf eq_refl Hlt)
    as (Hdef & _ & _ & Hall).
  split; [exact video_registry_wf|]. split; [reflexivity|]. split; [exact Hlt|].
  split; [exact Hdef|]. split; [reflexivity|]. intros s' Hs'. exact (proj1 (Hall s' Hs')).
Defined.

(** X6 at [w_crowded]: the open session behind 25 closed ones is not
    reached. *)
Lemma signalPeerConnections_too_many_closed_witness :
  25 ≤ closed_count w_crowded ∧
  deferred (signalPeerConnections w_crowded).2 = [3000000000%Z] ∧
  processed (signalPeerConnections w_crowded).2 = [].
Proof.
  assert (Hle : 25 ≤ closed_count w_crowded) by (vm_compute; lia).
  destruct (signalPeerConnections_too_many_closed w_crowded Hle) as [Hdef _].
  split; [exact Hle|]. split; [exact Hdef|]. reflexivity.
Defined.

(** X9: the second packet of two good turns. *)
Lemma relay_loop_forwards_in_order_witness :
  relay_written (relay_loop empty_Packet [good_turn; good_turn]) !! 1 = Some empty_Packet ∧
  ∃ turn data parsed,
    [good_turn; good_turn] !! 1 = Some turn ∧ turn_Read turn = Some data ∧
    rtp_Unmarshal
      (default empty_Packet (relay_written (relay_loop empty_Packet [good_turn; good_turn]) !! 0))
      data = Some parsed ∧
    empty_Packet = clear_extensions parsed.
Proof.
  split; [reflexivity|].
  exact (relay_loop_forwards_in_order empty_Packet [good_turn; good_turn] 1 empty_Packet eq_refl).
Defined.

(** X11 at [trickle]: the object without an event is taken as a second
    candidate. *)
Lemma read_loop_applies_messages_witness :
  handler_state (read_loop trickle {| Event := ""; Data := "" |} publisher [] []) = Blocked ∧
  RemoteCandidates (handler_pc (read_loop trickle {| Event := ""; Data := "" |} publisher [] [])) =
    [{| ice_Candidate := "a" |}; {| ice_Candidate := "b" |}] ∧
  RemoteDescription (handler_pc (read_loop trickle {| Event := ""; Data := "" |} publisher [] [])) =
    Some {| sd_Type := SDPTypeAnswer; sd_SDP := "sdp" |}.
Proof.
  assert (Hb : handler_state (read_loop trickle {| Event := ""; Data := "" |} publisher [] [])
               = Blocked) by (vm_compute; reflexivity).
  destruct (read_loop_applies_messages trickle {| Event := ""; Data := "" |} publisher [] [] Hb)
    as (Hcand & Hdesc & _).
  split; [exact Hb|]. split; [rewrite Hcand; reflexivity|rewrite Hdesc; reflexivity].
Defined.

(** X13 at [w_failing]: the setup goes through on the fourth call of a
    script of failures, and every pass of its reconciliation fails. *)
Lemma websocketHandler_setup_registers_witness :
  let w := set_faults ([false; false; false] ++ replicate 25 true) w_failing in
  join_joined (websocketHandler_setup (Some {| Conn := 5 |}) w) = true ∧
  last (footprints (join_world (websocketHandler_setup (Some {| Conn := 5 |}) w))) =
    Some (joined_footprint {| Conn := 5 |}) ∧
  deferred (join_events (websocketHandler_setup (Some {| Conn := 5 |}) w)) = [3000000000%Z].
Proof.
  intros w.
  assert (Hj : join_joined (websocketHandler_setup (Some {| Conn := 5 |}) w) = true)
    by (vm_compute; reflexivity).
  destruct (websocketHandler_setup_registers {| Conn := 5 |} w Hj) as (Hlast & _).
  split; [exact Hj|]. split; [exact Hlast|]. reflexivity.
Defined.

(** X14 at [w_leaving]: the new session gets a sender for the video track. *)
Lemma websocketHandler_setup_subscribes_witness :
  registry_wf (trackLocals w_leaving) ∧ faults w_leaving = [] ∧ closed_count w_leaving < 25 ∧
  websocket <$> peerConnections (join_world (websocketHandler_setup (Some {| Conn := 5 |}) w_leaving)) =
    [{| Conn := 0 |}; {| Conn := 2 |}; {| Conn := 5 |}] ∧
  ∃ s, last (peerConnections (join_world (websocketHandler_setup (Some {| Conn := 5 |}) w_leaving)))
         = Some s ∧
       sender_ids (peerConnection s) = {["video"]}.
Proof.
  assert (Hlt : closed_count w_leaving < 25) by (vm_compute; lia).
  destruct (websocketHandler_setup_subscribes {| Conn := 5 |} w_leaving
              video_registry_wf eq_refl Hlt) as (_ & _ & _ & s & adjusted & Hlast & _ & Hids & _).
  split; [exact video_registry_wf|]. split; [reflexivity|]. split; [exact Hlt|].
  split; [reflexivity|]. exists s. split; [exact Hlast|]. rewrite Hids. reflexivity.
Defined.

(** X15 at [w_flaky]: the second call fails; the second session is not
    reached. *)
Lemma attemptSync_failure_aborts_witness :
  let '(tryAgain, w', evs) := attemptSync w_flaky in
  evs = [EngineCall 0 (CallRemoveTrack sender_old) true]
          ++ EngineCall 0 (CallAddTrack local_video) false :: [] ∧
  is_failure (EngineCall 0 (CallAddTrack local_video) false) ∧
  tryAgain = true ∧ footprints w' = footprints w_flaky.
Proof.
  destruct (attemptSync w_flaky) as [[r w'] evs] eqn:Hrun.
  assert (Hevs : evs = [EngineCall 0 (CallRemoveTrack sender_old) true]
                         ++ EngineCall 0 (CallAddTrack local_video) false :: []).
  { pose proof Hrun as Hval. vm_compute in Hval. by injection Hval as _ _ <-. }
  destruct (attemptSync_failure_aborts w_flaky r w' evs _ _ _ Hrun Hevs I) as (_ & Hr & Hfp).
  split; [exact Hevs|]. split; [exact I|]. split; [exact Hr|exact Hfp].
Defined.
